(** * snakefish: the ring-buffer channel and its owned memory regions

    A shallow embedding of [src/buffer.h] and [src/channel.cpp].

    - [size_t] values are [Z] with the 64-bit wrap-around written out.
    - Raw memory is a flat address space [mem := Z -> byte]; a pointer into a
      region is an offset, and [memcpy] copies [n] bytes whatever the size of
      the objects behind its arguments (as the machine does).
    - A channel operation runs in a small monad that threads the shared
      channel state, can throw a C++ exception or block on a semaphore, and
      records every [memcpy] it issues.
    - The data region is the part [0, capacity) of its flat memory.  A
      [memcpy] that leaves it has no defined effect in the program (it lands
      on whatever is mapped behind the region, or ends the process), and the
      model gives it none outside the flat memory.  The record of the
      [memcpy] calls shows such a copy ([within_region]); what a call
      returns and the state it leaves are stated for calls, and runs, whose
      copies all stay inside the region.
    - Calls run one at a time: a call holds the mutex from its first access
      to the shared state to its last, so the states between calls are the
      quiescent ones, with the mutex free ([lock = 1]). *)

From Stdlib Require Import ZArith List Bool Lia String.
From coqutil Require Import Byte Word.LittleEndianList.
Import ListNotations.
Local Open Scope Z_scope.

(** ** [size_t] arithmetic (LP64: 64 bits, little-endian in memory) *)

Definition SIZE_MAX : Z := 18446744073709551615.   (* 2^64 - 1 *)
Definition PTRDIFF_MAX : Z := 9223372036854775807.  (* 2^63 - 1 *)

Definition size_t_wrap (z : Z) : Z := z mod 2 ^ 64.
Definition size_t_add (a b : Z) : Z := size_t_wrap (a + b).
Definition size_t_sub (a b : Z) : Z := size_t_wrap (a - b).
Definition size_t_rem (a b : Z) : Z := a mod b.

Notation "a [+] b" := (size_t_add a b) (at level 50, left associativity).
Notation "a [-] b" := (size_t_sub a b) (at level 50, left associativity).
Notation "a [%] b" := (size_t_rem a b) (at level 40, left associativity).

(** [sizeof(size_t)] *)
Definition sizeof_size_t : Z := 8.

(** ** Flat memory and [memcpy] *)

Definition mem : Type := Z -> byte.

(** [memcpy(dst + d, src + s, n)] *)
Definition memcpy (dst : mem) (d : Z) (src : mem) (s : Z) (n : Z) : mem :=
  fun a => if (d <=? a) && (a <? d + n) then src (s + (a - d)) else dst a.

(** The [n] bytes at [m + off]. *)
Definition load_bytes (m : mem) (off : Z) (n : nat) : list byte :=
  map (fun i => m (off + Z.of_nat i)) (seq 0 n).

(** An object holding the bytes [l]; the model reads [x00] around it. *)
Definition mem_of_list (l : list byte) : mem :=
  fun a => if a <? 0 then Byte.x00 else nth (Z.to_nat a) l Byte.x00.

(** Memory as [malloc] hands it out (contents indeterminate; fixed here). *)
Definition malloc_mem : mem := fun _ => Byte.x00.

(** [&len]: the object representation of a [size_t]. *)
Definition size_t_bytes (v : Z) : mem := mem_of_list (le_split 8 v).

(** [*static_cast<size_t *>(p)] *)
Definition size_t_load (p : mem) : Z := le_combine (load_bytes p 0 8).

(** ** buffer.h: owned memory regions *)

Module Buffer.

Inductive buffer_type := MALLOC | MMAP.

(** [buf] is the address of the underlying memory. *)
Record buffer := { buf : Z; len : Z; type : buffer_type }.

(** [buffer(buffer &&t) = default]: the implicitly defined move constructor
    moves member by member, and moving a pointer, a [size_t] or an enum
    copies it.  Returns the new object and the moved-from one. *)
Definition move (t : buffer) : buffer * buffer :=
  ({| buf := buf t; len := len t; type := type t |}, t).

Definition get_ptr (b : buffer) : Z := buf b.
Definition get_len (b : buffer) : Z := len b.
Definition get_type (b : buffer) : buffer_type := type b.

(** Calls that hand memory back to the system. *)
Inductive release := free (p : Z) | munmap (p : Z) (n : Z).

Definition released_ptr (r : release) : Z :=
  match r with free p => p | munmap p _ => p end.

(** Modelled from the spec: [buffer::~buffer] (buffer.cpp is not part of the
    sources).  "Destructor releases memory via the origin-appropriate
    mechanism": [free] for [MALLOC], [munmap] for [MMAP].  The calls made so
    far are kept in a log. *)
Definition destroy (b : buffer) (log : list release) : list release :=
  match type b with
  | MALLOC => log ++ [free (buf b)]
  | MMAP => log ++ [munmap (buf b) (len b)]
  end.

(** How often the memory at [p] has been released. *)
Definition times_released (p : Z) (log : list release) : nat :=
  List.length (filter (fun r => released_ptr r =? p) log).

End Buffer.

(** ** channel.cpp *)

Inductive exn := overflow_error | out_of_range | runtime_error.

(** How a call ends: it returns, throws, or never gets past a semaphore. *)
Inductive outcome (A : Type) :=
| Ret (a : A)
| Throw (e : exn)
| Block.
Arguments Ret {A} a.
Arguments Throw {A} e.
Arguments Block {A}.

(** The memory regions [memcpy] is called on. *)
Inductive region := Shared | LenBytes | Bytes.

(** One [memcpy(dst, src, n)] call, pointers as (region, offset). *)
Record copy := { dst : region * Z; src : region * Z; size : Z }.

(** The shared channel state. [end] is a keyword, hence [end_]. *)
Record channel := {
  lock : Z;          (* count of the mutex semaphore *)
  n_unread : Z;      (* count of the readiness semaphore *)
  capacity : Z;
  shared_mem : mem;
  start : Z;
  end_ : Z;
  full : bool
}.

Definition set_lock (v : Z) (c : channel) : channel :=
  {| lock := v; n_unread := n_unread c; capacity := capacity c;
     shared_mem := shared_mem c; start := start c; end_ := end_ c; full := full c |}.
Definition set_n_unread (v : Z) (c : channel) : channel :=
  {| lock := lock c; n_unread := v; capacity := capacity c;
     shared_mem := shared_mem c; start := start c; end_ := end_ c; full := full c |}.
Definition set_shared_mem (v : mem) (c : channel) : channel :=
  {| lock := lock c; n_unread := n_unread c; capacity := capacity c;
     shared_mem := v; start := start c; end_ := end_ c; full := full c |}.
Definition set_start (v : Z) (c : channel) : channel :=
  {| lock := lock c; n_unread := n_unread c; capacity := capacity c;
     shared_mem := shared_mem c; start := v; end_ := end_ c; full := full c |}.
Definition set_end (v : Z) (c : channel) : channel :=
  {| lock := lock c; n_unread := n_unread c; capacity := capacity c;
     shared_mem := shared_mem c; start := start c; end_ := v; full := full c |}.
Definition set_full (v : bool) (c : channel) : channel :=
  {| lock := lock c; n_unread := n_unread c; capacity := capacity c;
     shared_mem := shared_mem c; start := start c; end_ := end_ c; full := v |}.

(** *** The monad of channel operations *)

Definition M (A : Type) : Type := channel -> outcome A * channel * list copy.

Definition ret {A} (a : A) : M A := fun c => (Ret a, c, []).

Definition bind {A B} (m : M A) (k : A -> M B) : M B := fun c =>
  match m c with
  | (Ret a, c1, l1) => let '(r, c2, l2) := k a c1 in (r, c2, l1 ++ l2)
  | (Throw e, c1, l1) => (Throw e, c1, l1)
  | (Block, c1, l1) => (Block, c1, l1)
  end.

Definition throw {A} (e : exn) : M A := fun c => (Throw e, c, []).

(** [try { m } catch (const std::runtime_error &e) { h e }] *)
Definition try_catch_runtime_error {A} (m : M A) (h : exn -> M A) : M A := fun c =>
  match m c with
  | (Throw runtime_error, c1, l1) =>
      let '(r, c2, l2) := h runtime_error c1 in (r, c2, l1 ++ l2)
  | r => r
  end.

Definition load {A} (field : channel -> A) : M A := fun c => (Ret (field c), c, []).
Definition store {A} (set : A -> channel -> channel) (v : A) : M unit :=
  fun c => (Ret tt, set v c, []).

Declare Scope chan_scope.
Delimit Scope chan_scope with chan.
Notation "x <- m ;; k" := (bind m (fun x => k))
  (at level 61, m at next level, right associativity) : chan_scope.
Notation "m ;; k" := (bind m (fun _ => k))
  (at level 61, right associativity) : chan_scope.
Local Open Scope chan_scope.

(** [memcpy(static_cast<char *>(shared_mem) + d, src + s, n)]; the program's
    copy as long as [d .. d + n] lies in the data region. *)
Definition memcpy_to_shared (d : Z) (r : region) (src_mem : mem) (s n : Z) : M unit :=
  fun c => (Ret tt, set_shared_mem (memcpy (shared_mem c) d src_mem s n) c,
            [{| dst := (Shared, d); src := (r, s); size := n |}]).

(** [memcpy(dst + d, static_cast<char *>(shared_mem) + s, n)]; returns the
    destination's new contents.  The program's copy as long as [s .. s + n]
    lies in the data region. *)
Definition memcpy_from_shared (r : region) (dst_mem : mem) (d s n : Z) : M mem :=
  fun c => (Ret (memcpy dst_mem d (shared_mem c) s n), c,
            [{| dst := (r, d); src := (Shared, s); size := n |}]).

(** The buffer [receive_bytes] returns: its contents and fields. *)
Record buffer := { buf : mem; len : Z; type : Buffer.buffer_type }.

Definition buffer_bytes (b : buffer) : list byte :=
  load_bytes (buf b) 0 (Z.to_nat (len b)).

(** The available space [send_bytes] computes from [head], [tail], [full]. *)
Definition available_space (capacity head tail : Z) (full : bool) : Z :=
  if head <? tail then capacity [-] (tail [-] head)
  else if head >? tail then head [-] tail
  else if negb full then capacity
  else 0.

Section Channel.

(** [SEM_VALUE_MAX] of <limits.h>. *)
Variable SEM_VALUE_MAX : Z.

(** Modelled from the spec: the process-shared semaphore (its class is not
    part of the sources).  [post] "increments ... fails if the underlying
    count would overflow"; [wait] "blocks the calling process until
    count > 0, then atomically decrements"; [trywait] "attempts the same
    decrement without blocking and reports whether it succeeded". *)
Definition sem_post (get : channel -> Z) (set : Z -> channel -> channel) : M unit :=
  fun c => if get c <? SEM_VALUE_MAX then (Ret tt, set (get c + 1) c, [])
           else (Throw runtime_error, c, []).
Definition sem_wait (get : channel -> Z) (set : Z -> channel -> channel) : M unit :=
  fun c => if 0 <? get c then (Ret tt, set (get c - 1) c, []) else (Block, c, []).
Definition sem_trywait (get : channel -> Z) (set : Z -> channel -> channel) : M bool :=
  fun c => if 0 <? get c then (Ret true, set (get c - 1) c, []) else (Ret false, c, []).

(** Modelled from the spec: [acquire_lock] and [release_lock] (declared in a
    header that is not part of the sources) wait on and post the mutex
    semaphore. *)
Definition acquire_lock : M unit := sem_wait lock set_lock.
Definition release_lock : M unit := sem_post lock set_lock.

(** [channel::channel(size)]: [lock(1)], [n_unread()] (a count of 0: the
    spec's "number of complete messages currently buffered"), and
    [start = end = 0], [full = false].  [shared] is the fresh shared mapping
    of [size] bytes. *)
Definition new_channel (size : Z) (shared : mem) : channel :=
  {| lock := 1; n_unread := 0; capacity := size; shared_mem := shared;
     start := 0; end_ := 0; full := false |}.

(** [channel::send_bytes(bytes, len)]. [bytes] is the sender's memory from
    the pointer on; the payload is its first [len] bytes. *)
Definition send_bytes (bytes : mem) (len : Z) : M unit :=
  if len =? 0 then ret tt else
  acquire_lock ;;
  capacity <- load capacity ;;
  let size_t_size := sizeof_size_t in
  let n := size_t_size [+] len in
  head <- load start ;;
  tail <- load end_ ;;
  is_full <- load full ;;
  let available_space := available_space capacity head tail is_full in
  if n >? available_space then
    release_lock ;; throw overflow_error
  else
  let len_bytes := size_t_bytes len in
  let new_end := (tail [+] size_t_size) [%] capacity in
  (if new_end >? tail then
     memcpy_to_shared tail LenBytes len_bytes 0 size_t_size
   else
     let first_half_len := capacity [-] tail in
     let second_half_len := size_t_size [-] first_half_len in
     memcpy_to_shared tail LenBytes len_bytes 0 first_half_len ;;
     memcpy_to_shared 0 LenBytes len_bytes first_half_len second_half_len) ;;
  let tail := new_end in
  let new_end := (new_end [+] len) [%] capacity in
  (if new_end >? tail then
     memcpy_to_shared tail Bytes bytes 0 n
   else
     let first_half_len := capacity [-] tail in
     let second_half_len := len [-] first_half_len in
     memcpy_to_shared tail Bytes bytes 0 first_half_len ;;
     memcpy_to_shared 0 Bytes bytes first_half_len second_half_len) ;;
  (if n =? available_space then store set_full true else ret tt) ;;
  store set_end new_end ;;
  try_catch_runtime_error (sem_post n_unread set_n_unread)
    (fun e => release_lock ;; throw e) ;;
  release_lock.

(** [channel::receive_bytes(block)] *)
Definition receive_bytes (block : bool) : M buffer :=
  (if block then sem_wait n_unread set_n_unread
   else
     ok <- sem_trywait n_unread set_n_unread ;;
     if negb ok then throw out_of_range else ret tt) ;;
  acquire_lock ;;
  capacity <- load capacity ;;
  let size_t_size := sizeof_size_t in
  let len_bytes := malloc_mem in
  head <- load start ;;
  let new_start := (head [+] size_t_size) [%] capacity in
  len_bytes <-
    (if new_start >? head then
       memcpy_from_shared LenBytes len_bytes 0 head size_t_size
     else
       let first_half_len := capacity [-] head in
       let second_half_len := size_t_size [-] first_half_len in
       len_bytes <- memcpy_from_shared LenBytes len_bytes 0 head first_half_len ;;
       memcpy_from_shared LenBytes len_bytes first_half_len 0 second_half_len) ;;
  let len := size_t_load len_bytes in
  let bytes := malloc_mem in
  let head := new_start in
  let new_start := (new_start [+] len) [%] capacity in
  bytes <-
    (if new_start >? head then
       memcpy_from_shared Bytes bytes 0 head len
     else
       let first_half_len := capacity [-] head in
       let second_half_len := len [-] first_half_len in
       bytes <- memcpy_from_shared Bytes bytes 0 head first_half_len ;;
       memcpy_from_shared Bytes bytes first_half_len 0 second_half_len) ;;
  store set_full false ;;
  store set_start new_start ;;
  release_lock ;;
  ret {| buf := bytes; len := len; type := Buffer.MALLOC |}.

End Channel.

(** *** Runs of calls on one channel *)

Inductive call :=
| Send (bytes : mem) (len : Z)
| Receive (block : bool).

(** What a caller observes of a finished call. *)
Inductive result :=
| Returned              (* [send_bytes] returned *)
| Received (b : buffer) (* [receive_bytes] returned [b] *)
| Thrown (e : exn)
| Blocked.

Definition step (SEM_VALUE_MAX : Z) (k : call) (c : channel) : result * channel :=
  match k with
  | Send bytes len =>
      match send_bytes SEM_VALUE_MAX bytes len c with
      | (Ret _, c', _) => (Returned, c')
      | (Throw e, c', _) => (Thrown e, c')
      | (Block, c', _) => (Blocked, c')
      end
  | Receive block =>
      match receive_bytes SEM_VALUE_MAX block c with
      | (Ret b, c', _) => (Received b, c')
      | (Throw e, c', _) => (Thrown e, c')
      | (Block, c', _) => (Blocked, c')
      end
  end.

(** Runs the calls in order; returns each call with its result, and the
    final state. *)
Fixpoint run (SEM_VALUE_MAX : Z) (ks : list call) (c : channel)
  : list (call * result) * channel :=
  match ks with
  | [] => ([], c)
  | k :: ks' =>
      let '(r, c') := step SEM_VALUE_MAX k c in
      let '(h, c'') := run SEM_VALUE_MAX ks' c' in
      ((k, r) :: h, c'')
  end.

(** [send_bytes] calls that returned. *)
Definition is_successful_send (e : call * result) : bool :=
  match e with (Send _ _, Returned) => true | _ => false end.
(** [send_bytes] calls with a payload that returned. *)
Definition is_frame_sent (e : call * result) : bool :=
  match e with (Send _ len, Returned) => negb (len =? 0) | _ => false end.
(** [receive_bytes] calls that returned. *)
Definition is_successful_receive (e : call * result) : bool :=
  match e with (Receive _, Received _) => true | _ => false end.

Definition count (p : call * result -> bool) (h : list (call * result)) : Z :=
  Z.of_nat (List.length (filter p h)).

(** The bytes the receives of a history returned, oldest first. *)
Fixpoint received (h : list (call * result)) : list (list byte) :=
  match h with
  | [] => []
  | (_, Received b) :: h' => buffer_bytes b :: received h'
  | _ :: h' => received h'
  end.

(** *** Reading the ring *)

(** The [n] bytes of the ring of size [capacity] from offset [off] on. *)
Definition ring_bytes (m : mem) (capacity off : Z) (n : nat) : list byte :=
  map (fun i => m ((off + Z.of_nat i) mod capacity)) (seq 0 n).

(** Bytes of the data region in use. *)
Definition used_space (c : channel) : Z :=
  capacity c - available_space (capacity c) (start c) (end_ c) (full c).

(** The frame size [n] that [send_bytes] computes. *)
Definition frame_size (len : Z) : Z := sizeof_size_t [+] len.

(** Sends the payloads [ps] (each the sender's memory and a length) in order
    and returns the state after the last one, if every call returned. *)
Fixpoint send_all (SEM_VALUE_MAX : Z) (ps : list (mem * Z)) (c : channel) : option channel :=
  match ps with
  | [] => Some c
  | (bytes, len) :: ps' =>
      match send_bytes SEM_VALUE_MAX bytes len c with
      | (Ret _, c', _) => send_all SEM_VALUE_MAX ps' c'
      | _ => None
      end
  end.

Definition frames_size (ps : list (mem * Z)) : Z :=
  fold_right (fun p acc => (sizeof_size_t + snd p) + acc) 0 ps.

(** *** The copies of one call, written out

    [send_bytes] and [receive_bytes] each copy twice, the length prefix and
    the payload, with the same two-branch pattern.  The definitions below
    name the memory and the [memcpy] calls that pattern produces; the lemmas
    [send_bytes_run] and [receive_bytes_run] show that the calls do exactly
    this. *)

(** Copying into the ring at [tail]: [size] decides the branch, and the
    non-wrapping branch copies [nowrap_size] bytes. *)
Definition copy_in (shm : mem) (capacity tail : Z) (src_mem : mem)
    (size nowrap_size : Z) : mem :=
  if (tail [+] size) [%] capacity >? tail then
    memcpy shm tail src_mem 0 nowrap_size
  else
    memcpy (memcpy shm tail src_mem 0 (capacity [-] tail))
      0 src_mem (capacity [-] tail) (size [-] (capacity [-] tail)).

Definition copies_in (capacity tail : Z) (r : region) (size nowrap_size : Z) : list copy :=
  if (tail [+] size) [%] capacity >? tail then
    [{| dst := (Shared, tail); src := (r, 0); size := nowrap_size |}]
  else
    [{| dst := (Shared, tail); src := (r, 0); size := capacity [-] tail |};
     {| dst := (Shared, 0); src := (r, capacity [-] tail);
        size := size [-] (capacity [-] tail) |}].

(** Copying [size] bytes out of the ring at [head] into fresh memory. *)
Definition copy_out (shm : mem) (capacity head size : Z) : mem :=
  if (head [+] size) [%] capacity >? head then
    memcpy malloc_mem 0 shm head size
  else
    memcpy (memcpy malloc_mem 0 shm head (capacity [-] head))
      (capacity [-] head) shm 0 (size [-] (capacity [-] head)).

Definition copies_out (capacity head : Z) (r : region) (size : Z) : list copy :=
  if (head [+] size) [%] capacity >? head then
    [{| dst := (r, 0); src := (Shared, head); size := size |}]
  else
    [{| dst := (r, 0); src := (Shared, head); size := capacity [-] head |};
     {| dst := (r, capacity [-] head); src := (Shared, 0);
        size := size [-] (capacity [-] head) |}].

(** The offset after the length prefix that starts at [off]. *)
Definition after_prefix (capacity off : Z) : Z := (off [+] sizeof_size_t) [%] capacity.

(** The state a [send_bytes] call that passed the space check leaves, up to
    the readiness count. *)
Definition sent (bytes : mem) (len : Z) (c : channel) : channel :=
  let n := sizeof_size_t [+] len in
  let tail' := after_prefix (capacity c) (end_ c) in
  {| lock := 1;
     n_unread := n_unread c;
     capacity := capacity c;
     shared_mem :=
       copy_in
         (copy_in (shared_mem c) (capacity c) (end_ c) (size_t_bytes len)
            sizeof_size_t sizeof_size_t)
         (capacity c) tail' bytes len n;
     start := start c;
     end_ := (tail' [+] len) [%] capacity c;
     full := if n =? available_space (capacity c) (start c) (end_ c) (full c)
             then true else full c |}.

Definition sent_copies (len : Z) (c : channel) : list copy :=
  copies_in (capacity c) (end_ c) LenBytes sizeof_size_t sizeof_size_t
  ++ copies_in (capacity c) (after_prefix (capacity c) (end_ c)) Bytes len
       (sizeof_size_t [+] len).

(** The length prefix [receive_bytes] reads at [start]. *)
Definition pending_len (c : channel) : Z :=
  size_t_load (copy_out (shared_mem c) (capacity c) (start c) sizeof_size_t).

(** What a [receive_bytes] call that got past the semaphores returns and
    leaves. *)
Definition taken_buffer (c : channel) : buffer :=
  {| buf := copy_out (shared_mem c) (capacity c)
              (after_prefix (capacity c) (start c)) (pending_len c);
     len := pending_len c;
     type := Buffer.MALLOC |}.

Definition taken (c : channel) : channel :=
  {| lock := 1;
     n_unread := n_unread c - 1;
     capacity := capacity c;
     shared_mem := shared_mem c;
     start := (after_prefix (capacity c) (start c) [+] pending_len c) [%] capacity c;
     end_ := end_ c;
     full := false |}.

Definition taken_copies (c : channel) : list copy :=
  copies_out (capacity c) (start c) LenBytes sizeof_size_t
  ++ copies_out (capacity c) (after_prefix (capacity c) (start c)) Bytes (pending_len c).

(** The state of a channel whose frames, [s] bytes in all, lie from offset 0
    on and were never received: [l1] is the payload length of the first. *)
Definition filled_from_start (cap s l1 : Z) (c : channel) : Prop :=
  lock c = 1 /\ capacity c = cap /\ start c = 0 /\ end_ c = s mod cap /\
  full c = (s =? cap) /\
  forall i, 0 <= i < sizeof_size_t -> shared_mem c i = size_t_bytes l1 i.

(** *** [memcpy] calls and the shared region *)

Definition is_shared (r : region) : bool :=
  match r with Shared => true | _ => false end.

Definition pointer_within (cap : Z) (p : region * Z) (n : Z) : bool :=
  if is_shared (fst p) then (0 <=? snd p) && (snd p + n <=? cap) else true.

(** The call touches the shared region only inside its [cap] bytes. *)
Definition within_region (cap : Z) (k : copy) : bool :=
  (0 <=? size k) && pointer_within cap (dst k) (size k)
  && pointer_within cap (src k) (size k).

(** The [memcpy] calls of one call, and of the calls of a run, in order. *)
Definition call_copies (SEM_VALUE_MAX : Z) (k : call) (c : channel) : list copy :=
  match k with
  | Send bytes len => snd (send_bytes SEM_VALUE_MAX bytes len c)
  | Receive block => snd (receive_bytes SEM_VALUE_MAX block c)
  end.

Fixpoint run_copies (SEM_VALUE_MAX : Z) (ks : list call) (c : channel) : list copy :=
  match ks with
  | [] => []
  | k :: ks' =>
      call_copies SEM_VALUE_MAX k c
      ++ run_copies SEM_VALUE_MAX ks' (snd (step SEM_VALUE_MAX k c))
  end.

(** *** Python objects over the channel *)

(** [PICKLE_PROTOCOL] of channel.h *)
Definition PICKLE_PROTOCOL : Z := 4.

(** What a call into Python gives: a value, or the Python error that the
    call raised and that leaves the C++ function as an exception. *)
Inductive py_result (A : Type) :=
| PyValue (a : A)
| PyError.
Arguments PyValue {A} a.
Arguments PyError {A}.

Section PyObj.

(** Python objects and the two functions the constructor imports from
    [pickle].  [dumps obj protocol] is the buffer of the bytes object that
    [pickle.dumps] returns, as [PyMemoryView_GET_BUFFER] shows it: the
    process memory at [buf->buf], and [buf->len].  [loads bytes] is
    [pickle.loads] on a memory view of [bytes]. *)
Variable pyobj : Type.
Variable dumps : pyobj -> Z -> option (mem * Z).
Variable loads : list byte -> option pyobj.

Variable SEM_VALUE_MAX : Z.

(** [channel::send_pyobj(obj)] *)
Definition send_pyobj (obj : pyobj) : M (py_result unit) :=
  match dumps obj PICKLE_PROTOCOL with
  | None => ret PyError
  | Some (buf, len) =>
      send_bytes SEM_VALUE_MAX buf len ;;
      ret (PyValue tt)
  end.

(** [channel::receive_pyobj(block)] *)
Definition receive_pyobj (block : bool) : M (py_result pyobj) :=
  bytes_buf <- receive_bytes SEM_VALUE_MAX block ;;
  match loads (buffer_bytes bytes_buf) with
  | Some obj => ret (PyValue obj)
  | None => ret PyError
  end.

End PyObj.

(** *** Frames in a ring that has not wrapped yet *)

(** The frames [q] lie back to back in [shm] from offset [off] on. *)
Fixpoint frames_at (shm : mem) (off : Z) (q : list (mem * Z)) : Prop :=
  match q with
  | [] => True
  | (bytes, len) :: q' =>
      (forall i, 0 <= i < sizeof_size_t -> shm (off + i) = size_t_bytes len i) /\
      (forall i, 0 <= i < len -> shm (off + sizeof_size_t + i) = bytes i) /\
      frames_at shm (off + sizeof_size_t + len) q'
  end.

(** The payload of a pending send, as bytes. *)
Definition payload_bytes (p : mem * Z) : list byte :=
  load_bytes (fst p) 0 (Z.to_nat (snd p)).

(** The bytes the sends of [ks] ask for in the ring, prefixes included. *)
Fixpoint sent_total (ks : list call) : Z :=
  match ks with
  | [] => 0
  | Send _ len :: ks' => (if len =? 0 then 0 else sizeof_size_t + len) + sent_total ks'
  | Receive _ :: ks' => sent_total ks'
  end.

(** The sends of [ks] that carry a payload. *)
Fixpoint frames_in (ks : list call) : Z :=
  match ks with
  | [] => 0
  | Send _ len :: ks' => (if len =? 0 then 0 else 1) + frames_in ks'
  | Receive _ :: ks' => frames_in ks'
  end.

(** No send of [ks] has a negative length (lengths are [size_t]). *)
Definition lengths_ok (ks : list call) : Prop :=
  Forall (fun k => match k with Send _ len => 0 <= len | Receive _ => True end) ks.

(** The length of every send of [ks] is a [size_t] whose frame size
    [8 + len] is one too. *)
Definition lengths_in_range (ks : list call) : Prop :=
  Forall (fun k => match k with
                   | Send _ len => 0 <= len <= SIZE_MAX - sizeof_size_t
                   | Receive _ => True
                   end) ks.

(** A channel of [cap] bytes in which [ot] bytes of frames were written from
    offset 0 on, [oh] of them were received, and the frames [q] wait. *)
Definition unwrapped (cap : Z) (q : list (mem * Z)) (oh ot : Z) (c : channel) : Prop :=
  lock c = 1 /\ capacity c = cap /\
  0 <= oh /\ oh <= ot /\ ot <= cap /\
  start c = oh mod cap /\ end_ c = ot mod cap /\
  full c = (oh =? 0) && (ot =? cap) /\
  n_unread c = Z.of_nat (List.length q) /\
  oh + frames_size q = ot /\
  Forall (fun p => 0 < snd p) q /\
  frames_at (shared_mem c) oh q.

(** *** Concrete channels and payloads *)

Definition sem_max_linux : Z := 2147483647.

Definition payload (s : string) : list byte := list_byte_of_string s.


Definition ch32 : channel := new_channel 32 malloc_mem.
Definition AB : mem := mem_of_list (payload "AB").
Definition CDE : mem := mem_of_list (payload "CDE").
Definition twenty : mem := mem_of_list (payload "0123456789abcdefghij").
Definition A8 : mem := mem_of_list (payload "AAAAAAAA").
Definition B8 : mem := mem_of_list (payload "BBBBBBBB").

(** The sender's memory at a payload "CCCCCCCC" that is followed by the
    bytes [after]. *)
Definition C8 (after : list byte) : mem := mem_of_list (payload "CCCCCCCC" ++ after).

(** Two frames fill a channel of 32 bytes, the first is received, and a
    third frame is sent into the 16 bytes that became free. *)
Definition refill (after : list byte) : list call :=
  [Send A8 8; Send B8 8; Receive false; Send (C8 after) 8].

(** A channel of 16 bytes filled by one frame. *)
Definition full16 : channel :=
  snd (fst (send_bytes sem_max_linux A8 8 (new_channel 16 malloc_mem))).

(** The least value POSIX allows for [SEM_VALUE_MAX]
    ([_POSIX_SEM_VALUE_MAX]), and a run that brings the readiness count of a
    channel of 1 MiB to it: 32767 frames of one byte. *)
Definition sem_max_posix : Z := 32767.
Definition one_byte : mem := mem_of_list (payload "X").
Definition one_byte_frames : list call := repeat (Send one_byte 1) (Z.to_nat sem_max_posix).
Definition MiB : Z := 1048576.

(** The state that run reaches. *)
Abbreviation counted_out :=
  (snd (run sem_max_posix one_byte_frames (new_channel MiB malloc_mem))).

(** *** The channel as a queue of frames (the spec's FIFO)

    Modelled on the spec's words, to compare [run] with: a send with a
    payload appends its bytes, a receive takes the oldest. *)

Fixpoint fifo (ks : list call) (queue : list (list byte)) : list (list byte) :=
  match ks with
  | [] => []
  | Send bytes len :: ks' =>
      fifo ks' (if len =? 0 then queue
                else queue ++ [load_bytes bytes 0 (Z.to_nat len)])
  | Receive _ :: ks' =>
      match queue with
      | [] => fifo ks' []
      | p :: queue' => p :: fifo ks' queue'
      end
  end.

(** The frames in flight never take more than [cap] bytes. *)
Fixpoint in_flight_within (cap : Z) (ks : list call) (queue : list Z) : bool :=
  match ks with
  | [] => true
  | Send _ len :: ks' =>
      if len =? 0 then in_flight_within cap ks' queue
      else (fold_right Z.add 0 queue + (sizeof_size_t + len) <=? cap)
           && in_flight_within cap ks' (queue ++ [sizeof_size_t + len])
  | Receive _ :: ks' => in_flight_within cap ks' (tl queue)
  end.

(** A channel of 32 bytes after two frames of 16 bytes were sent and the
    first was received: [start = 16], [end_ = 0]. *)
Definition half_drained : channel :=
  snd (run sem_max_linux [Send A8 8; Send B8 8; Receive false] ch32).

(** A channel of 32 bytes holding the frame of "AB". *)
Definition holding_ab : channel :=
  snd (fst (send_bytes sem_max_linux AB 2 ch32)).

(** A stand-in for [pickle] on byte strings: the protocol number in front
    of the bytes. *)
Definition toy_dumps (obj : list byte) (protocol : Z) : option (mem * Z) :=
  Some (mem_of_list (byte.of_Z protocol :: obj), Z.of_nat (S (List.length obj))).
Definition toy_loads (bytes : list byte) : option (list byte) :=
  match bytes with
  | [] => None
  | p :: obj => if byte.unsigned p =? PICKLE_PROTOCOL then Some obj else None
  end.

(** * Properties *)

(** ** Owned memory regions *)

Module BufferFacts.
Import Buffer.

Lemma times_released_app p l1 l2 :
  times_released p (l1 ++ l2) = (times_released p l1 + times_released p l2)%nat.
Proof. unfold times_released. now rewrite filter_app, length_app. Qed.

Lemma times_released_destroy b log :
  times_released (buf b) (destroy b log) = S (times_released (buf b) log).
Proof.
  unfold destroy. destruct (type b); rewrite times_released_app;
    unfold times_released at 2; simpl; rewrite Z.eqb_refl; simpl; lia.
Qed.

(** C4: after a move both instances hold the same pointer, and destroying
    the moved-to and the moved-from instance releases the underlying memory
    twice, not once. *)
Theorem move_then_destroy_both_releases_twice (t : buffer) (log : list release) :
  let '(moved_to, moved_from) := move t in
  buf moved_from = buf t /\
  buf moved_to = buf t /\
  times_released (buf t) (destroy moved_from (destroy moved_to log))
  = S (S (times_released (buf t) log)).
Proof.
  simpl. repeat split.
  rewrite (times_released_destroy t).
  change (buf t) with (buf {| buf := buf t; len := len t; type := type t |}) at 1.
  now rewrite times_released_destroy.
Qed.

End BufferFacts.

(** ** [size_t] and memory facts *)

Lemma size_t_wrap_small z : 0 <= z <= SIZE_MAX -> size_t_wrap z = z.
Proof.
  unfold size_t_wrap, SIZE_MAX. intros. apply Z.mod_small.
  change (2 ^ 64) with 18446744073709551616. lia.
Qed.

Lemma size_t_add_small a b : 0 <= a + b <= SIZE_MAX -> a [+] b = a + b.
Proof. apply size_t_wrap_small. Qed.

Lemma size_t_sub_small a b : 0 <= a - b <= SIZE_MAX -> a [-] b = a - b.
Proof. apply size_t_wrap_small. Qed.

Lemma set_lock_unlock c : lock c = 1 -> set_lock (0 + 1) (set_lock 0 c) = c.
Proof. destruct c; simpl; intros ->; reflexivity. Qed.

Ltac bounds := unfold SIZE_MAX, PTRDIFF_MAX, sizeof_size_t in *; lia.

(** *** Byte lists read from memory *)

Lemma map_seq_eq {A} (f : nat -> A) (l : list A) (d : A) (n : nat) :
  List.length l = n ->
  (forall i, (i < n)%nat -> f i = nth i l d) ->
  map f (seq 0 n) = l.
Proof.
  intros Hlen Hf. apply (nth_ext _ _ (f 0%nat) d).
  - now rewrite length_map, length_seq.
  - intros i Hi. rewrite length_map, length_seq in Hi.
    rewrite (map_nth f (seq 0 n) 0%nat i), seq_nth by assumption. now apply Hf.
Qed.

Lemma size_t_bytes_nth (v : Z) (i : nat) :
  size_t_bytes v (Z.of_nat i) = nth i (le_split 8 v) Byte.x00.
Proof.
  unfold size_t_bytes, mem_of_list.
  replace (Z.of_nat i <? 0) with false by (symmetry; apply Z.ltb_ge; lia).
  now rewrite Nat2Z.id.
Qed.

Lemma size_t_load_bytes (m : mem) (v : Z) :
  0 <= v <= SIZE_MAX ->
  (forall i, 0 <= i < 8 -> m i = size_t_bytes v i) ->
  size_t_load m = v.
Proof.
  intros Hv Hm. unfold size_t_load.
  replace (load_bytes m 0 8) with (le_split 8 v).
  - rewrite le_combine_split. apply Z.mod_small.
    change (2 ^ (Z.of_nat 8 * 8)) with 18446744073709551616. bounds.
  - symmetry. apply (map_seq_eq _ _ Byte.x00).
    + apply length_le_split.
    + intros i Hi. rewrite Z.add_0_l, Hm by lia. apply size_t_bytes_nth.
Qed.

(** *** Offsets in the ring *)

Lemma ring_add (cap x y : Z) :
  0 <= x < cap -> 0 <= y <= cap ->
  (x + y) mod cap = if x + y <? cap then x + y else x + y - cap.
Proof.
  intros Hx Hy. destruct (Z.ltb_spec (x + y) cap).
  - apply Z.mod_small. lia.
  - rewrite <- (Z.mod_add (x + y) (-1) cap) by lia.
    rewrite Z.mod_small by lia. lia.
Qed.

Lemma after_prefix_ring (cap off : Z) :
  0 <= off < cap -> sizeof_size_t <= cap <= PTRDIFF_MAX ->
  after_prefix cap off = (off + sizeof_size_t) mod cap /\
  0 <= after_prefix cap off < cap.
Proof.
  intros Ho Hc. unfold after_prefix, size_t_rem.
  rewrite size_t_add_small by bounds. split; [reflexivity |].
  apply Z.mod_pos_bound. lia.
Qed.

(** *** What [memcpy] and the two-branch copy leave in memory *)

Lemma memcpy_inside dst d src s n a :
  d <= a < d + n -> memcpy dst d src s n a = src (s + (a - d)).
Proof.
  intros H. unfold memcpy.
  replace (d <=? a) with true by (symmetry; apply Z.leb_le; lia).
  replace (a <? d + n) with true by (symmetry; apply Z.ltb_lt; lia).
  reflexivity.
Qed.

Lemma memcpy_outside dst d src s n a :
  a < d \/ d + n <= a -> memcpy dst d src s n a = dst a.
Proof.
  intros H. unfold memcpy.
  destruct (Z.leb_spec d a); [| reflexivity].
  replace (a <? d + n) with false by (symmetry; apply Z.ltb_ge; lia).
  reflexivity.
Qed.

(** The available space without [size_t] wrap-around. *)
Lemma available_space_eq (cap head tail : Z) (is_full : bool) :
  0 <= head < cap -> 0 <= tail < cap -> cap <= SIZE_MAX ->
  available_space cap head tail is_full
  = if head <? tail then cap - (tail - head)
    else if tail <? head then head - tail
    else if is_full then 0 else cap.
Proof.
  intros Hh Ht Hc. unfold available_space. rewrite Z.gtb_ltb.
  destruct (Z.ltb_spec head tail).
  - rewrite (size_t_sub_small tail head) by lia. apply size_t_sub_small. lia.
  - destruct (Z.ltb_spec tail head).
    + apply size_t_sub_small. lia.
    + now destruct is_full.
Qed.

Section CopyOut.

Variables (shm : mem) (cap head sz : Z).
Hypothesis Hcap : cap <= PTRDIFF_MAX.
Hypothesis Hhead : 0 <= head < cap.
Hypothesis Hsize : 0 < sz <= cap.

(** Byte [i] of the copy is the byte at offset [i] from [head] in the ring. *)
Lemma copy_out_ring (i : Z) :
  0 <= i < sz ->
  copy_out shm cap head sz i = shm ((head + i) mod cap).
Proof.
  intros Hi. unfold copy_out, size_t_rem.
  rewrite size_t_add_small by bounds.
  rewrite !ring_add by lia.
  destruct (Z.ltb_spec (head + sz) cap).
  - replace (head + sz >? head) with true by (symmetry; apply Z.gtb_lt; lia).
    replace (head + i <? cap) with true by (symmetry; apply Z.ltb_lt; lia).
    rewrite memcpy_inside by lia. f_equal. lia.
  - replace (head + sz - cap >? head) with false
      by (symmetry; rewrite Z.gtb_ltb; apply Z.ltb_ge; lia).
    rewrite (size_t_sub_small cap head) by bounds.
    rewrite size_t_sub_small by bounds.
    destruct (Z.ltb_spec (head + i) cap).
    + rewrite memcpy_outside by lia. rewrite memcpy_inside by lia. f_equal. lia.
    + rewrite memcpy_inside by lia. f_equal. lia.
Qed.

(** The copies out of the ring stay inside the region. *)
Lemma copies_out_eq (r : region) :
  copies_out cap head r sz
  = if head + sz <? cap then
      [{| dst := (r, 0); src := (Shared, head); size := sz |}]
    else
      [{| dst := (r, 0); src := (Shared, head); size := cap - head |};
       {| dst := (r, cap - head); src := (Shared, 0); size := sz - (cap - head) |}].
Proof.
  unfold copies_out, size_t_rem.
  rewrite size_t_add_small by bounds.
  rewrite ring_add by lia.
  destruct (Z.ltb_spec (head + sz) cap).
  - now replace (head + sz >? head) with true by (symmetry; apply Z.gtb_lt; lia).
  - replace (head + sz - cap >? head) with false
      by (symmetry; rewrite Z.gtb_ltb; apply Z.ltb_ge; lia).
    rewrite (size_t_sub_small cap head) by bounds.
    now rewrite size_t_sub_small by bounds.
Qed.

End CopyOut.

Section CopyIn.

Variables (shm src_mem : mem) (cap tail sz nowrap_sz : Z).
Hypothesis Hcap : cap <= PTRDIFF_MAX.
Hypothesis Htail : 0 <= tail < cap.
Hypothesis Hsize : 0 < sz <= cap.
Hypothesis Hnowrap : sz <= nowrap_sz.

(** The copy does not reach the end of the region: one [memcpy] of
    [nowrap_sz] bytes. *)
Lemma copy_in_nowrap :
  tail + sz < cap ->
  copy_in shm cap tail src_mem sz nowrap_sz
  = memcpy shm tail src_mem 0 nowrap_sz.
Proof.
  intros H. unfold copy_in, size_t_rem.
  rewrite size_t_add_small by bounds.
  rewrite Z.mod_small by lia.
  replace (tail + sz >? tail) with true by (symmetry; apply Z.gtb_lt; lia).
  reflexivity.
Qed.

(** The copy reaches the end of the region: two [memcpy]s of [sz] bytes
    together. *)
Lemma copy_in_wrap :
  cap <= tail + sz ->
  copy_in shm cap tail src_mem sz nowrap_sz
  = memcpy (memcpy shm tail src_mem 0 (cap - tail))
      0 src_mem (cap - tail) (sz - (cap - tail)).
Proof.
  intros H. unfold copy_in, size_t_rem.
  rewrite size_t_add_small by bounds.
  rewrite ring_add by lia.
  replace (tail + sz <? cap) with false by (symmetry; apply Z.ltb_ge; lia).
  replace (tail + sz - cap >? tail) with false
    by (symmetry; rewrite Z.gtb_ltb; apply Z.ltb_ge; lia).
  rewrite (size_t_sub_small cap tail) by bounds.
  rewrite size_t_sub_small by bounds.
  reflexivity.
Qed.

(** Byte [i] of the source ends up at offset [i] from [tail] in the ring. *)
Lemma copy_in_ring (i : Z) :
  0 <= i < sz ->
  copy_in shm cap tail src_mem sz nowrap_sz ((tail + i) mod cap) = src_mem i.
Proof.
  intros Hi. rewrite ring_add by lia.
  destruct (Z.ltb_spec (tail + sz) cap) as [Hnw | Hw].
  - rewrite copy_in_nowrap by assumption.
    replace (tail + i <? cap) with true by (symmetry; apply Z.ltb_lt; lia).
    rewrite memcpy_inside by lia. f_equal. lia.
  - rewrite copy_in_wrap by assumption.
    destruct (Z.ltb_spec (tail + i) cap).
    + rewrite memcpy_outside by lia. rewrite memcpy_inside by lia. f_equal. lia.
    + rewrite memcpy_inside by lia. f_equal. lia.
Qed.

(** Offsets the copy leaves alone. *)
Lemma copy_in_other (a : Z) :
  (if tail + sz <? cap
   then a < tail \/ tail + nowrap_sz <= a
   else tail + sz - cap <= a < tail) ->
  copy_in shm cap tail src_mem sz nowrap_sz a = shm a.
Proof.
  destruct (Z.ltb_spec (tail + sz) cap) as [Hnw | Hw]; intros Ha.
  - rewrite copy_in_nowrap by assumption. now apply memcpy_outside.
  - rewrite copy_in_wrap by assumption. rewrite !memcpy_outside by lia.
    reflexivity.
Qed.

Lemma copies_in_nowrap (r : region) :
  tail + sz < cap ->
  copies_in cap tail r sz nowrap_sz
  = [{| dst := (Shared, tail); src := (r, 0); size := nowrap_sz |}].
Proof.
  intros H. unfold copies_in, size_t_rem.
  rewrite size_t_add_small by bounds.
  rewrite Z.mod_small by lia.
  replace (tail + sz >? tail) with true by (symmetry; apply Z.gtb_lt; lia).
  reflexivity.
Qed.

Lemma copies_in_wrap (r : region) :
  cap <= tail + sz ->
  copies_in cap tail r sz nowrap_sz
  = [{| dst := (Shared, tail); src := (r, 0); size := cap - tail |};
     {| dst := (Shared, 0); src := (r, cap - tail); size := sz - (cap - tail) |}].
Proof.
  intros H. unfold copies_in, size_t_rem.
  rewrite size_t_add_small by bounds.
  rewrite ring_add by lia.
  replace (tail + sz <? cap) with false by (symmetry; apply Z.ltb_ge; lia).
  replace (tail + sz - cap >? tail) with false
    by (symmetry; rewrite Z.gtb_ltb; apply Z.ltb_ge; lia).
  rewrite (size_t_sub_small cap tail) by bounds.
  rewrite size_t_sub_small by bounds.
  reflexivity.
Qed.

End CopyIn.

(** ** The channel *)

(** Runs the monad as far as the conditions met on the way are decided. *)
Ltac mrun :=
  cbv beta iota delta
    [bind ret throw load store try_catch_runtime_error
     memcpy_to_shared memcpy_from_shared
     acquire_lock release_lock sem_wait sem_post sem_trywait];
  cbn [lock n_unread capacity shared_mem start end_ full
       set_lock set_n_unread set_shared_mem set_start set_end set_full
       Z.ltb Z.compare negb app].

Section ChannelFacts.

Variable SEM_VALUE_MAX : Z.
(** The mutex is a binary semaphore: its count can reach 1. *)
Hypothesis SEM_VALUE_MAX_pos : 1 <= SEM_VALUE_MAX.

Lemma sem_max_unlocked : (0 <? SEM_VALUE_MAX) = true.
Proof. apply Z.ltb_lt. lia. Qed.

(** [send_bytes] without a payload does nothing. *)
Lemma send_bytes_empty (c : channel) (bytes : mem) :
  send_bytes SEM_VALUE_MAX bytes 0 c = (Ret tt, c, []).
Proof. reflexivity. Qed.

(** [send_bytes] when the frame does not fit. *)
Lemma send_bytes_overflow (c : channel) (bytes : mem) (len : Z) :
  lock c = 1 ->
  len <> 0 ->
  frame_size len > available_space (capacity c) (start c) (end_ c) (full c) ->
  send_bytes SEM_VALUE_MAX bytes len c = (Throw overflow_error, c, []).
Proof.
  intros Hl Hlen Hn. unfold send_bytes, frame_size in *.
  replace (len =? 0) with false by (symmetry; apply Z.eqb_neq; lia).
  mrun. rewrite Hl. change (1 - 1) with 0. mrun.
  replace (_ >? _) with true by (symmetry; apply Z.gtb_lt; lia).
  mrun. rewrite sem_max_unlocked.
  mrun. now rewrite set_lock_unlock.
Qed.

(** [send_bytes] when the frame fits: the copies are made and the metadata
    stored, then the post of the readiness semaphore decides the outcome. *)
Lemma send_bytes_run (c : channel) (bytes : mem) (len : Z) :
  lock c = 1 ->
  len <> 0 ->
  frame_size len <= available_space (capacity c) (start c) (end_ c) (full c) ->
  send_bytes SEM_VALUE_MAX bytes len c =
  if n_unread c <? SEM_VALUE_MAX
  then (Ret tt, set_n_unread (n_unread c + 1) (sent bytes len c), sent_copies len c)
  else (Throw runtime_error, sent bytes len c, sent_copies len c).
Proof.
  intros Hl Hlen Hn. unfold send_bytes, frame_size in *.
  replace (len =? 0) with false by (symmetry; apply Z.eqb_neq; lia).
  mrun. rewrite Hl. change (1 - 1) with 0. mrun.
  replace (_ >? _) with false by (symmetry; rewrite Z.gtb_ltb; apply Z.ltb_ge; lia).
  unfold sent, sent_copies, copy_in, copies_in, after_prefix.
  destruct (_ >? end_ c); mrun;
    (destruct (_ >? _); mrun);
    (destruct (_ =? _); mrun);
    (destruct (n_unread c <? SEM_VALUE_MAX); mrun);
    rewrite ?sem_max_unlocked; mrun; reflexivity.
Qed.

Lemma send_bytes_copies (c : channel) (bytes : mem) (len : Z) :
  lock c = 1 ->
  len <> 0 ->
  frame_size len <= available_space (capacity c) (start c) (end_ c) (full c) ->
  snd (send_bytes SEM_VALUE_MAX bytes len c) = sent_copies len c.
Proof.
  intros Hl Hlen Hn. rewrite send_bytes_run by assumption.
  now destruct (n_unread c <? SEM_VALUE_MAX).
Qed.

Lemma taken_buffer_bytes (c : channel) :
  buffer_bytes (taken_buffer c)
  = load_bytes (copy_out (shared_mem c) (capacity c)
                  (after_prefix (capacity c) (start c)) (pending_len c))
      0 (Z.to_nat (pending_len c)).
Proof. reflexivity. Qed.

(** [receive_bytes] without a frame to take. *)
Lemma receive_bytes_none (c : channel) (block : bool) :
  n_unread c <= 0 ->
  receive_bytes SEM_VALUE_MAX block c =
  (if block then Block else Throw out_of_range, c, []).
Proof.
  intros H0. unfold receive_bytes.
  destruct block; mrun;
    replace (0 <? n_unread c) with false by (symmetry; apply Z.ltb_ge; lia);
    reflexivity.
Qed.

(** [receive_bytes] with a counted frame: the readiness count goes down,
    prefix and payload are copied out, the metadata stored. *)
Lemma receive_bytes_run (c : channel) (block : bool) :
  lock c = 1 ->
  0 < n_unread c ->
  receive_bytes SEM_VALUE_MAX block c = (Ret (taken_buffer c), taken c, taken_copies c).
Proof.
  intros Hl H0. unfold receive_bytes.
  unfold taken_buffer, taken, taken_copies, pending_len, copy_out, copies_out,
    after_prefix.
  destruct block; mrun;
    (replace (0 <? n_unread c) with true by (symmetry; apply Z.ltb_lt; lia));
    mrun; rewrite Hl; change (1 - 1) with 0; mrun;
    (destruct (_ >? start c); mrun);
    (destruct (_ >? _); mrun);
    rewrite ?sem_max_unlocked; mrun; reflexivity.
Qed.

(** C6: the available space that [send_bytes] computes. *)
Theorem available_space_cases (cap head tail : Z) (is_full : bool) :
  0 <= head < cap -> 0 <= tail < cap -> cap <= SIZE_MAX ->
  (head < tail -> available_space cap head tail is_full = cap - (tail - head)) /\
  (head > tail -> available_space cap head tail is_full = head - tail) /\
  (head = tail -> is_full = false -> available_space cap head tail is_full = cap) /\
  (head = tail -> is_full = true -> available_space cap head tail is_full = 0).
Proof.
  intros Hh Ht Hc. unfold available_space. repeat split; intros.
  - replace (head <? tail) with true by (symmetry; apply Z.ltb_lt; lia).
    rewrite (size_t_sub_small tail head) by lia. apply size_t_sub_small. lia.
  - replace (head <? tail) with false by (symmetry; apply Z.ltb_ge; lia).
    replace (head >? tail) with true by (symmetry; apply Z.gtb_lt; lia).
    apply size_t_sub_small. lia.
  - subst. now rewrite Z.ltb_irrefl, Z.gtb_ltb, Z.ltb_irrefl.
  - subst. now rewrite Z.ltb_irrefl, Z.gtb_ltb, Z.ltb_irrefl.
Qed.

(** C3 (amended): a [send_bytes] call with a payload ([len > 0]) whose frame
    size [n] exceeds the available space throws [overflow_error], issues no
    [memcpy] and leaves the whole channel state as it was. *)
Theorem send_bytes_overflow_no_mutation (c : channel) (bytes : mem) (len : Z) :
  lock c = 1 ->
  0 < len ->
  frame_size len > available_space (capacity c) (start c) (end_ c) (full c) ->
  send_bytes SEM_VALUE_MAX bytes len c = (Throw overflow_error, c, []).
Proof.
  intros Hl Hlen Hn. apply send_bytes_overflow; auto; lia.
Qed.

(** C5: a non-blocking [receive_bytes] on a channel without pending frames
    throws [out_of_range], issues no [memcpy] and leaves the channel state
    as it was. *)
Theorem receive_bytes_empty_nonblocking (c : channel) :
  n_unread c = 0 ->
  receive_bytes SEM_VALUE_MAX false c = (Throw out_of_range, c, []).
Proof.
  intros H0. unfold receive_bytes. mrun. rewrite H0. reflexivity.
Qed.

(** *** A frame that fits, written at [end_] *)

Lemma available_space_bounds (c : channel) :
  0 < capacity c <= PTRDIFF_MAX ->
  0 <= start c < capacity c -> 0 <= end_ c < capacity c ->
  0 <= available_space (capacity c) (start c) (end_ c) (full c) <= capacity c.
Proof.
  intros Hc Hs He. unfold available_space.
  destruct (Z.ltb_spec (start c) (end_ c)).
  - rewrite (size_t_sub_small (end_ c)) by bounds.
    rewrite size_t_sub_small by bounds. lia.
  - rewrite Z.gtb_ltb. destruct (Z.ltb_spec (end_ c) (start c)).
    + rewrite size_t_sub_small by bounds. lia.
    + destruct (full c); simpl; lia.
Qed.

Section Sent.

Variables (c : channel) (bytes : mem) (len : Z).
Hypothesis Hcap : 0 < capacity c <= PTRDIFF_MAX.
Hypothesis Hstart : 0 <= start c < capacity c.
Hypothesis Hend : 0 <= end_ c < capacity c.
Hypothesis Hlen : 0 < len.
Hypothesis Hfits :
  sizeof_size_t + len <= available_space (capacity c) (start c) (end_ c) (full c).

Lemma fits_capacity : sizeof_size_t + len <= capacity c.
Proof. pose proof (available_space_bounds c Hcap Hstart Hend). lia. Qed.

Lemma fits_frame_size : frame_size len = sizeof_size_t + len.
Proof.
  pose proof fits_capacity. unfold frame_size. apply size_t_add_small. bounds.
Qed.

Lemma sent_after_prefix :
  after_prefix (capacity c) (end_ c)
  = if end_ c + sizeof_size_t <? capacity c
    then end_ c + sizeof_size_t
    else end_ c + sizeof_size_t - capacity c.
Proof.
  pose proof fits_capacity.
  destruct (after_prefix_ring (capacity c) (end_ c)) as [-> _]; [lia | bounds |].
  apply ring_add; bounds.
Qed.

Lemma sent_end :
  end_ (sent bytes len c) = (end_ c + sizeof_size_t + len) mod capacity c.
Proof.
  pose proof fits_capacity.
  destruct (after_prefix_ring (capacity c) (end_ c)) as [Hp Hr]; [lia | bounds |].
  unfold sent. cbn [end_]. unfold size_t_rem.
  rewrite size_t_add_small by bounds.
  rewrite Hp. apply Z.add_mod_idemp_l. lia.
Qed.

(** The payload is in the ring behind the prefix. *)
Lemma sent_payload (i : Z) :
  0 <= i < len ->
  shared_mem (sent bytes len c)
    ((after_prefix (capacity c) (end_ c) + i) mod capacity c) = bytes i.
Proof.
  intros Hi. pose proof fits_capacity.
  destruct (after_prefix_ring (capacity c) (end_ c)) as [_ Hr]; [lia | bounds |].
  unfold sent. cbn [shared_mem].
  apply copy_in_ring; try bounds. rewrite size_t_add_small; bounds.
Qed.

(** The prefix is in the ring at the old [end_], unless the payload copy
    ran over it: when the prefix reaches the end of the region, the payload
    starts at its beginning and the [sizeof_size_t] extra bytes of the
    non-wrapping payload copy must stop short of the prefix. *)
Lemma sent_prefix (i : Z) :
  end_ c + sizeof_size_t < capacity c \/ len + 2 * sizeof_size_t <= capacity c ->
  0 <= i < sizeof_size_t ->
  shared_mem (sent bytes len c) ((end_ c + i) mod capacity c)
  = size_t_bytes len i.
Proof.
  intros Hroom Hi. pose proof fits_capacity.
  destruct (after_prefix_ring (capacity c) (end_ c)) as [_ Hr]; [lia | bounds |].
  unfold sent. cbn [shared_mem].
  rewrite copy_in_other; try bounds.
  - apply copy_in_ring; bounds.
  - rewrite size_t_add_small by bounds.
    rewrite sent_after_prefix in *. rewrite ring_add by bounds.
    destruct (Z.ltb_spec (end_ c + sizeof_size_t) (capacity c));
      destruct (Z.ltb_spec (end_ c + i) (capacity c));
      match goal with |- if ?a <? ?b then _ else _ => destruct (Z.ltb_spec a b) end;
      bounds.
Qed.

End Sent.

(** C1: the payload [memcpy]s of a [send_bytes] call whose frame fits.
    When the payload ends before the end of the region (the non-wrapping
    branch) the one copy has size [8 + len], not [len]; otherwise (the
    wrapping branch) the two copies have sizes that add up to [len]. *)
Theorem send_bytes_payload_copy_size (c : channel) (bytes : mem) (len : Z) :
  lock c = 1 ->
  0 < capacity c <= PTRDIFF_MAX ->
  0 <= start c < capacity c ->
  0 <= end_ c < capacity c ->
  0 < len ->
  sizeof_size_t + len <= available_space (capacity c) (start c) (end_ c) (full c) ->
  let tail := (end_ c + sizeof_size_t) mod capacity c in
  exists prefix_copies,
    snd (send_bytes SEM_VALUE_MAX bytes len c) =
    prefix_copies ++
    if tail + len <? capacity c then
      [{| dst := (Shared, tail); src := (Bytes, 0); size := sizeof_size_t + len |}]
    else
      [{| dst := (Shared, tail); src := (Bytes, 0); size := capacity c - tail |};
       {| dst := (Shared, 0); src := (Bytes, capacity c - tail);
          size := len - (capacity c - tail) |}].
Proof.
  intros Hl Hcap Hs He Hlen Hfits tail.
  pose proof (fits_capacity c len Hcap Hs He Hfits) as Hc.
  destruct (after_prefix_ring (capacity c) (end_ c)) as [Hp Hr]; [lia | bounds |].
  fold tail in Hp. rewrite Hp in Hr.
  exists (copies_in (capacity c) (end_ c) LenBytes sizeof_size_t sizeof_size_t).
  rewrite send_bytes_copies; try assumption; try lia.
  2: { rewrite (fits_frame_size c len); assumption. }
  unfold sent_copies. f_equal. rewrite Hp.
  rewrite (size_t_add_small sizeof_size_t len) by bounds.
  destruct (Z.ltb_spec (tail + len) (capacity c)).
  - now rewrite copies_in_nowrap by bounds.
  - now rewrite copies_in_wrap by bounds.
Qed.

(** A send whose post fails, when the payload copy does not reach back to
    the frame's own prefix. *)
Lemma send_bytes_post_failure_state (c : channel) (bytes : mem) (len : Z) :
  lock c = 1 ->
  0 < capacity c <= PTRDIFF_MAX ->
  0 <= start c < capacity c ->
  0 <= end_ c < capacity c ->
  0 < len ->
  sizeof_size_t + len <= available_space (capacity c) (start c) (end_ c) (full c) ->
  n_unread c = SEM_VALUE_MAX ->
  end_ c + sizeof_size_t < capacity c \/ len + 2 * sizeof_size_t <= capacity c ->
  exists c' copies,
    send_bytes SEM_VALUE_MAX bytes len c = (Throw runtime_error, c', copies) /\
    ring_bytes (shared_mem c') (capacity c) (end_ c) 8 = le_split 8 len /\
    ring_bytes (shared_mem c') (capacity c)
      ((end_ c + sizeof_size_t) mod capacity c) (Z.to_nat len)
    = load_bytes bytes 0 (Z.to_nat len) /\
    end_ c' = (end_ c + sizeof_size_t + len) mod capacity c /\
    full c' = (if sizeof_size_t + len
                  =? available_space (capacity c) (start c) (end_ c) (full c)
               then true else full c) /\
    start c' = start c /\
    n_unread c' = n_unread c /\
    lock c' = 1.
Proof.
  intros Hl Hcap Hs He Hlen Hfits Hmax Hroom.
  pose proof (fits_capacity c len Hcap Hs He Hfits) as Hc.
  pose proof (fits_frame_size c len Hcap Hs He Hlen Hfits) as Hn.
  destruct (after_prefix_ring (capacity c) (end_ c)) as [Hp Hr]; [lia | bounds |].
  exists (sent bytes len c), (sent_copies len c).
  rewrite send_bytes_run; try assumption; try lia.
  replace (n_unread c <? SEM_VALUE_MAX) with false
    by (symmetry; apply Z.ltb_ge; lia).
  split; [reflexivity |]. repeat split.
  - apply (map_seq_eq _ _ Byte.x00); [apply length_le_split |].
    intros i Hi. rewrite <- size_t_bytes_nth.
    apply sent_prefix; try assumption; bounds.
  - unfold load_bytes. apply map_ext_in. intros i Hi%in_seq.
    rewrite <- Hp. rewrite Z.add_0_l. apply sent_payload; try assumption. lia.
  - now apply sent_end.
  - unfold sent. cbn [full]. fold (frame_size len). now rewrite Hn.
Qed.

(** *** The space a frame takes *)

Ltac cases :=
  repeat match goal with
  | H : context [?a <? ?b] |- _ => destruct (Z.ltb_spec a b)
  | H : context [?a =? ?b] |- _ => destruct (Z.eqb_spec a b)
  | |- context [?a <? ?b] => destruct (Z.ltb_spec a b)
  | |- context [?a =? ?b] => destruct (Z.eqb_spec a b)
  end.

Lemma sent_available_space (c : channel) (bytes : mem) (len : Z) :
  0 < capacity c <= PTRDIFF_MAX ->
  0 <= start c < capacity c ->
  0 <= end_ c < capacity c ->
  0 < len ->
  sizeof_size_t + len <= available_space (capacity c) (start c) (end_ c) (full c) ->
  0 <= end_ (sent bytes len c) < capacity c /\
  available_space (capacity c) (start c) (end_ (sent bytes len c))
    (full (sent bytes len c))
  = available_space (capacity c) (start c) (end_ c) (full c) - (sizeof_size_t + len).
Proof.
  intros Hcap Hs He Hlen Hfits.
  pose proof (fits_capacity c len Hcap Hs He Hfits) as Hc.
  assert (Hfs : frame_size len = sizeof_size_t + len)
    by (apply (fits_frame_size c); assumption).
  rewrite (sent_end c bytes len) by assumption.
  assert (Hr : 0 <= (end_ c + sizeof_size_t + len) mod capacity c < capacity c)
    by (apply Z.mod_pos_bound; lia).
  split; [exact Hr |].
  rewrite (available_space_eq _ _ _ _ Hs Hr) by bounds.
  rewrite (available_space_eq _ _ _ _ Hs He) in * by bounds.
  unfold sent. cbn [full]. fold (frame_size len). rewrite Hfs.
  rewrite (available_space_eq _ _ _ _ Hs He) by bounds.
  replace (end_ c + sizeof_size_t + len) with (end_ c + (sizeof_size_t + len)) by lia.
  rewrite ring_add by bounds.
  destruct (full c); cases; bounds.
Qed.

(** *** Where the copies of a send go *)

(** X1: the [memcpy] calls of a [send_bytes] call whose frame fits stay inside
    the shared region in both branches of the prefix copy and in the
    wrapping branch of the payload copy.  The non-wrapping payload copy,
    [sizeof_size_t] bytes too long, runs past the end of the region when the
    payload ends within its last [sizeof_size_t] bytes. *)
Theorem send_bytes_copies_within_region (c : channel) (bytes : mem) (len : Z) :
  lock c = 1 ->
  0 < capacity c <= PTRDIFF_MAX ->
  0 <= start c < capacity c ->
  0 <= end_ c < capacity c ->
  0 < len ->
  sizeof_size_t + len <= available_space (capacity c) (start c) (end_ c) (full c) ->
  let tail := (end_ c + sizeof_size_t) mod capacity c in
  forallb (within_region (capacity c)) (snd (send_bytes SEM_VALUE_MAX bytes len c))
  = negb ((tail + len <? capacity c) && (capacity c <? tail + len + sizeof_size_t)).
Proof.
  intros Hl Hcap Hs He Hlen Hfits tail.
  pose proof (fits_capacity c len Hcap Hs He Hfits) as Hc.
  destruct (after_prefix_ring (capacity c) (end_ c)) as [Hp Hr]; [lia | bounds |].
  fold tail in Hp. rewrite Hp in Hr.
  rewrite send_bytes_copies; try assumption; try lia.
  2: { rewrite (fits_frame_size c len); assumption. }
  unfold sent_copies. rewrite forallb_app, Hp.
  rewrite (size_t_add_small sizeof_size_t len) by bounds.
  assert (Hprefix : forallb (within_region (capacity c))
            (copies_in (capacity c) (end_ c) LenBytes sizeof_size_t sizeof_size_t)
          = true).
  { destruct (Z.ltb_spec (end_ c + sizeof_size_t) (capacity c)).
    - rewrite copies_in_nowrap by bounds.
      unfold within_region, pointer_within. cbn [forallb size dst src fst snd is_shared].
      cases; try reflexivity; bounds.
    - rewrite copies_in_wrap by bounds.
      unfold within_region, pointer_within. cbn [forallb size dst src fst snd is_shared].
      cases; try reflexivity; bounds. }
  rewrite Hprefix. cbn [andb].
  destruct (Z.ltb_spec (tail + len) (capacity c)).
  - rewrite copies_in_nowrap by bounds.
    unfold within_region, pointer_within. cbn [forallb size dst src fst snd is_shared].
    cases; try reflexivity; bounds.
  - rewrite copies_in_wrap by bounds.
    unfold within_region, pointer_within. cbn [forallb size dst src fst snd is_shared].
    cases; try reflexivity; bounds.
Qed.

(** X3: a successful send whose copies stay inside the region takes exactly
    its frame size [8 + len] from the available space, and keeps the bounds
    of [end_]; so if every counted frame had its 9 bytes or more before, it
    has them after. *)
Theorem send_bytes_takes_frame_size (c : channel) (bytes : mem) (len : Z) :
  lock c = 1 ->
  0 < capacity c <= PTRDIFF_MAX ->
  0 <= start c < capacity c ->
  0 <= end_ c < capacity c ->
  0 < len ->
  sizeof_size_t + len <= available_space (capacity c) (start c) (end_ c) (full c) ->
  n_unread c < SEM_VALUE_MAX ->
  forallb (within_region (capacity c)) (snd (send_bytes SEM_VALUE_MAX bytes len c)) = true ->
  exists c' copies,
    send_bytes SEM_VALUE_MAX bytes len c = (Ret tt, c', copies) /\
    lock c' = 1 /\ capacity c' = capacity c /\ start c' = start c /\
    0 <= end_ c' < capacity c /\
    n_unread c' = n_unread c + 1 /\
    available_space (capacity c') (start c') (end_ c') (full c')
    = available_space (capacity c) (start c) (end_ c) (full c) - (sizeof_size_t + len) /\
    (9 * n_unread c <= used_space c -> 9 * n_unread c' <= used_space c').
Proof.
  intros Hl Hcap Hs He Hlen Hfits Hn _.
  destruct (sent_available_space c bytes len Hcap Hs He Hlen Hfits) as [Hr Ha].
  exists (set_n_unread (n_unread c + 1) (sent bytes len c)), (sent_copies len c).
  rewrite send_bytes_run; try assumption; try lia.
  2: { rewrite (fits_frame_size c len); assumption. }
  replace (n_unread c <? SEM_VALUE_MAX) with true by (symmetry; apply Z.ltb_lt; lia).
  split; [reflexivity |].
  unfold used_space.
  cbn [lock capacity start end_ full n_unread set_n_unread] in *.
  change (capacity (sent bytes len c)) with (capacity c).
  change (start (sent bytes len c)) with (start c).
  rewrite Ha. repeat split; try tauto; bounds.
Qed.

(** X4: on an empty ring a frame that was sent is received as it was sent,
    provided the copies of the send stay inside the region and the payload
    copy could not run over the frame's own prefix: the prefix ends before
    the end of the region, or [len + 16 <= capacity]. *)
Theorem send_receive_round_trip (c : channel) (bytes : mem) (len : Z) (block : bool) :
  lock c = 1 ->
  0 < capacity c <= PTRDIFF_MAX ->
  0 <= start c < capacity c ->
  end_ c = start c -> full c = false -> n_unread c = 0 ->
  0 < len -> sizeof_size_t + len <= capacity c ->
  forallb (within_region (capacity c)) (snd (send_bytes SEM_VALUE_MAX bytes len c)) = true ->
  end_ c + sizeof_size_t < capacity c \/ len + 2 * sizeof_size_t <= capacity c ->
  exists c1 copies1 b c2 copies2,
    send_bytes SEM_VALUE_MAX bytes len c = (Ret tt, c1, copies1) /\
    receive_bytes SEM_VALUE_MAX block c1 = (Ret b, c2, copies2) /\
    buffer_bytes b = load_bytes bytes 0 (Z.to_nat len) /\
    end_ c2 = start c2 /\ full c2 = false /\ n_unread c2 = 0.
Proof.
  intros Hl Hcap Hs Hempty Hf Hn Hlen Hc _ Hroom.
  assert (He : 0 <= end_ c < capacity c) by lia.
  assert (Havail : available_space (capacity c) (start c) (end_ c) (full c) = capacity c).
  { rewrite available_space_eq by bounds. rewrite Hempty, Hf, Z.ltb_irrefl. reflexivity. }
  assert (Hfits : sizeof_size_t + len
                  <= available_space (capacity c) (start c) (end_ c) (full c)) by lia.
  destruct (after_prefix_ring (capacity c) (end_ c)) as [Hp Hr]; [lia | bounds |].
  set (c1 := set_n_unread (n_unread c + 1) (sent bytes len c)).
  assert (Hlen1 : pending_len c1 = len).
  { unfold pending_len. apply size_t_load_bytes; [bounds |].
    intros i Hi. cbn [c1 shared_mem capacity start set_n_unread sent].
    rewrite copy_out_ring by bounds. rewrite <- Hempty.
    apply (sent_prefix c bytes len); assumption. }
  exists c1, (sent_copies len c), (taken_buffer c1), (taken c1), (taken_copies c1).
  rewrite send_bytes_run; try assumption; try lia.
  2: { rewrite (fits_frame_size c len); assumption. }
  replace (n_unread c <? SEM_VALUE_MAX) with true by (symmetry; apply Z.ltb_lt; lia).
  split; [reflexivity |].
  rewrite receive_bytes_run by (cbn; lia).
  split; [reflexivity |]. split; [| split; [| split]].
  - rewrite taken_buffer_bytes, Hlen1.
    unfold load_bytes. apply map_ext_in. intros i Hi%in_seq.
    cbn [c1 shared_mem capacity start set_n_unread sent].
    rewrite <- Hempty. rewrite !Z.add_0_l.
    rewrite copy_out_ring by bounds.
    apply (sent_payload c bytes len); try assumption. lia.
  - unfold taken. cbn [end_ start]. rewrite Hlen1.
    cbn [c1 capacity start end_ set_n_unread sent]. rewrite <- Hempty. reflexivity.
  - reflexivity.
  - cbn. lia.
Qed.

(** X2: the [memcpy] calls of a [receive_bytes] call stay inside the shared
    region when the prefix it reads at [start] is the length of a frame that
    fits the channel. *)
Theorem receive_bytes_copies_within_region (c : channel) (block : bool) :
  lock c = 1 ->
  0 < n_unread c ->
  0 < capacity c <= PTRDIFF_MAX ->
  0 <= start c < capacity c ->
  0 < pending_len c ->
  sizeof_size_t + pending_len c <= capacity c ->
  forallb (within_region (capacity c)) (snd (receive_bytes SEM_VALUE_MAX block c))
  = true.
Proof.
  intros Hl Hn Hcap Hs Hlen Hc.
  destruct (after_prefix_ring (capacity c) (start c)) as [Hp Hr]; [lia | bounds |].
  rewrite receive_bytes_run by assumption. cbn [snd].
  unfold taken_copies. rewrite forallb_app.
  rewrite !copies_out_eq by bounds.
  apply andb_true_intro. split.
  - destruct (Z.ltb_spec (start c + sizeof_size_t) (capacity c));
      unfold within_region, pointer_within;
      cbn [forallb size dst src fst snd is_shared];
      cases; try reflexivity; bounds.
  - destruct (Z.ltb_spec (after_prefix (capacity c) (start c) + pending_len c)
                (capacity c));
      unfold within_region, pointer_within;
      cbn [forallb size dst src fst snd is_shared];
      cases; try reflexivity; bounds.
Qed.

(** *** Filling a new channel *)

Lemma send_step_from_start (c : channel) (bytes : mem) (len s : Z) :
  lock c = 1 -> 0 < capacity c <= PTRDIFF_MAX ->
  start c = 0 -> end_ c = s -> full c = false ->
  s = 0 \/ sizeof_size_t <= s ->
  0 < len -> s + sizeof_size_t + len <= capacity c ->
  n_unread c < SEM_VALUE_MAX ->
  exists c',
    send_bytes SEM_VALUE_MAX bytes len c = (Ret tt, c', sent_copies len c) /\
    lock c' = 1 /\ capacity c' = capacity c /\ start c' = 0 /\
    end_ c' = (s + sizeof_size_t + len) mod capacity c /\
    full c' = (s + sizeof_size_t + len =? capacity c) /\
    n_unread c' = n_unread c + 1 /\
    forall i, 0 <= i < sizeof_size_t ->
      shared_mem c' i = if s =? 0 then size_t_bytes len i else shared_mem c i.
Proof.
  intros Hl Hcap Hst He Hf Hs Hlen Hroom Hn.
  assert (Havail : available_space (capacity c) (start c) (end_ c) (full c)
                   = capacity c - s).
  { unfold available_space. rewrite Hst, He, Hf. simpl negb.
    destruct (Z.ltb_spec 0 s).
    - rewrite (size_t_sub_small s 0) by bounds. rewrite size_t_sub_small; bounds.
    - rewrite Z.gtb_ltb. replace (s <? 0) with false by (symmetry; apply Z.ltb_ge; bounds).
      bounds. }
  assert (Hs' : 0 <= start c < capacity c) by lia.
  assert (He' : 0 <= end_ c < capacity c) by bounds.
  assert (Hfits : sizeof_size_t + len
                  <= available_space (capacity c) (start c) (end_ c) (full c))
    by (rewrite Havail; lia).
  assert (Hfs : frame_size len = sizeof_size_t + len)
    by (apply (fits_frame_size c); assumption).
  assert (Hpre : after_prefix (capacity c) (end_ c) = s + sizeof_size_t).
  { rewrite (sent_after_prefix c len) by assumption. rewrite He.
    replace (s + sizeof_size_t <? capacity c) with true
      by (symmetry; apply Z.ltb_lt; bounds).
    reflexivity. }
  exists (set_n_unread (n_unread c + 1) (sent bytes len c)).
  rewrite send_bytes_run by (try assumption; try lia).
  replace (n_unread c <? SEM_VALUE_MAX) with true by (symmetry; apply Z.ltb_lt; lia).
  split; [reflexivity |].
  cbn [lock capacity start end_ full n_unread shared_mem set_n_unread].
  repeat split.
  - assumption.
  - rewrite <- He. apply (sent_end c bytes len); assumption.
  - unfold sent. cbn [full]. fold (frame_size len). rewrite Hfs, Havail, Hf.
    destruct (Z.eqb_spec (sizeof_size_t + len) (capacity c - s));
      destruct (Z.eqb_spec (s + sizeof_size_t + len) (capacity c)); bounds.
  - intros i Hi. unfold sent. cbn [shared_mem]. rewrite Hpre, He.
    rewrite copy_in_other; try bounds.
    + rewrite copy_in_nowrap by bounds.
      destruct (Z.eqb_spec s 0) as [-> | Hne].
      * rewrite memcpy_inside by bounds. f_equal. lia.
      * apply memcpy_outside. bounds.
    + rewrite size_t_add_small by bounds.
      destruct (Z.ltb_spec (s + sizeof_size_t + len) (capacity c)); bounds.
Qed.

Lemma frames_size_nonneg (ps : list (mem * Z)) :
  Forall (fun p => 0 < snd p) ps -> 0 <= frames_size ps.
Proof.
  unfold frames_size. induction 1 as [| p ps Hp _ IH]; cbn [fold_right]; bounds.
Qed.

Lemma send_all_fills (cap l1 : Z) (ps : list (mem * Z)) : forall (c : channel) (s : Z),
  0 < cap <= PTRDIFF_MAX ->
  sizeof_size_t <= s ->
  filled_from_start cap s l1 c ->
  Forall (fun p => 0 < snd p) ps ->
  s + frames_size ps = cap ->
  n_unread c + Z.of_nat (List.length ps) <= SEM_VALUE_MAX ->
  exists c',
    send_all SEM_VALUE_MAX ps c = Some c' /\
    filled_from_start cap cap l1 c' /\
    n_unread c' = n_unread c + Z.of_nat (List.length ps).
Proof.
  induction ps as [| [bytes len] ps IH]; intros c s Hcap Hs Hfill Hpos Hsum Hmax.
  - cbn [frames_size fold_right] in Hsum. assert (s = cap) by bounds. subst s.
    exists c. split; [reflexivity | split; [assumption | cbn [List.length]; bounds]].
  - apply Forall_cons_iff in Hpos as [Hlen Hpos']. cbn [snd] in Hlen.
    pose proof (frames_size_nonneg ps Hpos') as Hrest.
    cbn [frames_size fold_right snd] in Hsum. fold (frames_size ps) in Hsum.
    cbn [List.length] in Hmax. rewrite Nat2Z.inj_succ in Hmax.
    destruct Hfill as (Hl & Hc & Hst & He & Hf & Hm).
    rewrite Z.mod_small in He by bounds.
    replace (s =? cap) with false in Hf by (symmetry; apply Z.eqb_neq; bounds).
    destruct (send_step_from_start c bytes len s)
      as (c1 & Hrun & Hl1 & Hc1 & Hst1 & He1 & Hf1 & Hn1 & Hm1);
      try assumption; try bounds.
    specialize (IH c1 (s + sizeof_size_t + len)).
    destruct IH as (c' & Hall & Hfill' & Hn'); try assumption; try bounds.
    + unfold filled_from_start. rewrite Hc1, Hc. repeat split; try assumption.
      * now rewrite <- Hc.
      * now rewrite <- Hc.
      * intros i Hi. rewrite Hm1 by assumption.
        replace (s =? 0) with false by (symmetry; apply Z.eqb_neq; bounds).
        now apply Hm.
    + exists c'. cbn [send_all]. rewrite Hrun.
      split; [assumption | split; [assumption |]].
      cbn [List.length]. rewrite Nat2Z.inj_succ. bounds.
Qed.

(** C7: in a new channel, after frames of [capacity] bytes in all are sent
    and none received, [full] is set and the available space computed from
    [start], [end_] and [full] is 0; a receive then clears [full] and
    leaves as available space the size [8 + len1] of the frame it took. *)
Theorem full_after_capacity_bytes_then_receive
    (size : Z) (shared bytes1 : mem) (len1 : Z) (ps : list (mem * Z)) :
  0 < size <= PTRDIFF_MAX ->
  Forall (fun p => 0 < snd p) ((bytes1, len1) :: ps) ->
  frames_size ((bytes1, len1) :: ps) = size ->
  Z.of_nat (List.length ((bytes1, len1) :: ps)) <= SEM_VALUE_MAX ->
  exists c,
    send_all SEM_VALUE_MAX ((bytes1, len1) :: ps) (new_channel size shared) = Some c /\
    full c = true /\
    available_space (capacity c) (start c) (end_ c) (full c) = 0 /\
    forall block, exists b c' copies,
      receive_bytes SEM_VALUE_MAX block c = (Ret b, c', copies) /\
      len b = len1 /\
      full c' = false /\
      available_space (capacity c') (start c') (end_ c') (full c')
      = sizeof_size_t + len1.
Proof.
  intros Hsize Hpos Hsum Hmax.
  apply Forall_cons_iff in Hpos as [Hlen Hpos']. cbn [snd] in Hlen.
  pose proof (frames_size_nonneg ps Hpos') as Hrest.
  cbn [frames_size fold_right snd] in Hsum. fold (frames_size ps) in Hsum.
  cbn [List.length] in Hmax. rewrite Nat2Z.inj_succ in Hmax.
  destruct (send_step_from_start (new_channel size shared) bytes1 len1 0)
    as (c1 & Hrun & Hl1 & Hc1 & Hst1 & He1 & Hf1 & Hn1 & Hm1);
    try reflexivity; cbn [capacity n_unread new_channel] in *; try bounds.
  destruct (send_all_fills size len1 ps c1 (0 + sizeof_size_t + len1))
    as (c & Hall & (Hl & Hc & Hst & He & Hf & Hm) & Hn);
    try assumption; try bounds.
  { unfold filled_from_start. repeat split; assumption. }
  rewrite Z.mod_same in He by bounds. rewrite Z.eqb_refl in Hf.
  exists c. cbn [send_all]. rewrite Hrun. split; [assumption |].
  split; [assumption |]. split.
  { rewrite Hst, He, Hf. reflexivity. }
  intros block. exists (taken_buffer c), (taken c), (taken_copies c).
  rewrite receive_bytes_run by bounds. split; [reflexivity |].
  assert (Hlen1 : pending_len c = len1).
  { unfold pending_len, copy_out, size_t_rem. rewrite Hst, Hc.
    rewrite size_t_add_small by bounds. rewrite Z.mod_small by bounds.
    change (0 + sizeof_size_t >? 0) with true. cbv iota.
    apply size_t_load_bytes; [bounds |].
    intros i Hi. rewrite memcpy_inside by bounds. rewrite <- Hm by bounds.
    f_equal. bounds. }
  split; [exact Hlen1 |]. split; [reflexivity |].
  unfold taken. cbn [capacity start end_ full]. rewrite Hlen1, Hst, He, Hc.
  destruct (after_prefix_ring size 0) as [Hp _]; [bounds | bounds |].
  unfold size_t_rem. rewrite size_t_add_small by
    (rewrite Hp, Z.mod_small; bounds).
  rewrite Hp, Z.add_mod_idemp_l by bounds. rewrite ring_add by bounds.
  unfold available_space.
  destruct (Z.ltb_spec (0 + sizeof_size_t + len1) size).
  - replace (0 + sizeof_size_t + len1 <? 0) with false
      by (symmetry; apply Z.ltb_ge; bounds).
    replace (0 + sizeof_size_t + len1 >? 0) with true
      by (symmetry; apply Z.gtb_lt; bounds).
    rewrite size_t_sub_small; bounds.
  - replace (0 + sizeof_size_t + len1 - size) with 0 by bounds.
    change (0 <? 0) with false. change (0 >? 0) with false.
    cbn [negb]. bounds.
Qed.

(** *** Runs: the readiness count *)

Lemma count_cons (p : call * result -> bool) x h :
  count p (x :: h) = (if p x then 1 else 0) + count p h.
Proof.
  unfold count. simpl. destruct (p x); [cbn [Datatypes.length]; rewrite Nat2Z.inj_succ |]; lia.
Qed.

Lemma step_count (k : call) (c : channel) :
  lock c = 1 ->
  let '(r, c') := step SEM_VALUE_MAX k c in
  lock c' = 1 /\
  n_unread c' = n_unread c + (if is_frame_sent (k, r) then 1 else 0)
                - (if is_successful_receive (k, r) then 1 else 0).
Proof.
  intros Hl. destruct k as [bytes len | block]; unfold step.
  - destruct (Z.eq_dec len 0) as [-> | Hlen].
    + rewrite send_bytes_empty. simpl. lia.
    + destruct (Z_gt_le_dec (frame_size len)
                  (available_space (capacity c) (start c) (end_ c) (full c))).
      * rewrite send_bytes_overflow by assumption. simpl. lia.
      * rewrite send_bytes_run by assumption.
        destruct (n_unread c <? SEM_VALUE_MAX); simpl.
        -- replace (len =? 0) with false by (symmetry; now apply Z.eqb_neq).
           simpl. lia.
        -- lia.
  - destruct (Z_lt_le_dec 0 (n_unread c)).
    + rewrite receive_bytes_run by assumption. simpl. lia.
    + rewrite receive_bytes_none by assumption. destruct block; simpl; lia.
Qed.

Lemma run_count (ks : list call) : forall c : channel,
  lock c = 1 ->
  lock (snd (run SEM_VALUE_MAX ks c)) = 1 /\
  n_unread (snd (run SEM_VALUE_MAX ks c))
  = n_unread c + count is_frame_sent (fst (run SEM_VALUE_MAX ks c))
    - count is_successful_receive (fst (run SEM_VALUE_MAX ks c)).
Proof.
  induction ks as [| k ks IH]; intros c Hl; simpl.
  - unfold count. simpl. lia.
  - pose proof (step_count k c Hl) as Hs.
    destruct (step SEM_VALUE_MAX k c) as [r c']. destruct Hs as [Hl' Hn].
    specialize (IH c' Hl').
    destruct (run SEM_VALUE_MAX ks c') as [h c'']. cbn [fst snd] in *.
    rewrite !count_cons. destruct IH as [IHl IHn]. split; [assumption | lia].
Qed.

(** C9 (amended): in every state reached from a new channel by sends and
    receives whose copies all stay inside the data region, the readiness
    count is the number of [send_bytes] calls with a payload ([len <> 0])
    that returned minus the number of [receive_bytes] calls that returned.
    (A copy that leaves the region writes to whatever is mapped behind it,
    which can be the semaphore; such runs are left out.) *)
Theorem readiness_count_frames_sent_minus_received
    (size : Z) (shared : mem) (ks : list call) :
  forallb (within_region size)
    (run_copies SEM_VALUE_MAX ks (new_channel size shared)) = true ->
  n_unread (snd (run SEM_VALUE_MAX ks (new_channel size shared)))
  = count is_frame_sent (fst (run SEM_VALUE_MAX ks (new_channel size shared)))
    - count is_successful_receive
        (fst (run SEM_VALUE_MAX ks (new_channel size shared))).
Proof.
  intros _.
  destruct (run_count ks (new_channel size shared) eq_refl) as [_ H].
  rewrite H. simpl. lia.
Qed.

(** *** The space check *)

Lemma frame_size_small (len : Z) :
  0 <= len <= SIZE_MAX - sizeof_size_t -> frame_size len = sizeof_size_t + len.
Proof. intros H. unfold frame_size. apply size_t_add_small. bounds. Qed.

(** X5: for a payload length that does not wrap the frame size
    ([0 < len <= SIZE_MAX - 8]), a [send_bytes] call whose copies stay inside
    the region throws [overflow_error] exactly when the frame of [8 + len]
    bytes exceeds the available space; a post failure is the only other way
    not to return. *)
Theorem send_bytes_overflow_iff (c : channel) (bytes : mem) (len : Z) :
  lock c = 1 ->
  0 < capacity c <= PTRDIFF_MAX ->
  0 <= start c < capacity c ->
  0 <= end_ c < capacity c ->
  0 < len <= SIZE_MAX - sizeof_size_t ->
  forallb (within_region (capacity c)) (snd (send_bytes SEM_VALUE_MAX bytes len c)) = true ->
  (fst (fst (send_bytes SEM_VALUE_MAX bytes len c)) = Throw overflow_error
   <-> sizeof_size_t + len > available_space (capacity c) (start c) (end_ c) (full c)) /\
  (fst (fst (send_bytes SEM_VALUE_MAX bytes len c)) = Ret tt
   <-> sizeof_size_t + len <= available_space (capacity c) (start c) (end_ c) (full c)
       /\ n_unread c < SEM_VALUE_MAX).
Proof.
  intros Hl _ _ _ Hlen _.
  pose proof (frame_size_small len ltac:(lia)) as Hfs.
  destruct (Z_gt_le_dec (sizeof_size_t + len)
              (available_space (capacity c) (start c) (end_ c) (full c))) as [Hgt | Hle].
  - rewrite send_bytes_overflow by (try assumption; lia). cbn [fst].
    split; split; intros H; try reflexivity; try assumption; try discriminate; lia.
  - rewrite send_bytes_run by (try assumption; lia).
    destruct (Z.ltb_spec (n_unread c) SEM_VALUE_MAX); cbn [fst];
      split; split; intros H'; try reflexivity; try discriminate; try lia.
Qed.

(** X6: a frame larger than the whole data region is rejected in every
    state: [send_bytes] throws [overflow_error] and changes nothing. *)
Theorem send_bytes_frame_larger_than_capacity (c : channel) (bytes : mem) (len : Z) :
  lock c = 1 ->
  0 < capacity c <= PTRDIFF_MAX ->
  0 <= start c < capacity c ->
  0 <= end_ c < capacity c ->
  0 < len <= SIZE_MAX - sizeof_size_t ->
  capacity c < sizeof_size_t + len ->
  send_bytes SEM_VALUE_MAX bytes len c = (Throw overflow_error, c, []).
Proof.
  intros Hl Hcap Hs He Hlen Hbig.
  pose proof (available_space_bounds c Hcap Hs He).
  apply send_bytes_overflow; try assumption; try lia.
  rewrite frame_size_small by lia. lia.
Qed.

(** *** Receives *)

(** X8: a blocking [receive_bytes] on a channel whose readiness count is 0
    does not return, issues no [memcpy] and leaves the state as it was. *)
Theorem receive_bytes_empty_blocking (c : channel) :
  n_unread c = 0 ->
  receive_bytes SEM_VALUE_MAX true c = (Block, c, []).
Proof. intros H0. rewrite receive_bytes_none by lia. reflexivity. Qed.

Lemma taken_available_space (c : channel) :
  0 < capacity c <= PTRDIFF_MAX ->
  0 <= start c < capacity c ->
  0 <= end_ c < capacity c ->
  0 < pending_len c ->
  sizeof_size_t + pending_len c <= used_space c ->
  0 <= start (taken c) < capacity c /\
  available_space (capacity c) (start (taken c)) (end_ c) false
  = available_space (capacity c) (start c) (end_ c) (full c)
    + (sizeof_size_t + pending_len c).
Proof.
  intros Hcap Hs He Hlen Hused. unfold used_space in Hused.
  pose proof (available_space_bounds c Hcap Hs He) as Hb.
  destruct (after_prefix_ring (capacity c) (start c)) as [Hp Hr]; [lia | bounds |].
  assert (Hst : start (taken c)
                = (start c + (sizeof_size_t + pending_len c)) mod capacity c).
  { unfold taken. cbn [start]. unfold size_t_rem.
    rewrite size_t_add_small by bounds.
    rewrite Hp, Z.add_mod_idemp_l by lia. f_equal. lia. }
  rewrite Hst.
  assert (Hr' : 0 <= (start c + (sizeof_size_t + pending_len c)) mod capacity c
                < capacity c) by (apply Z.mod_pos_bound; lia).
  split; [exact Hr' |].
  rewrite (available_space_eq _ _ _ _ Hr' He) by bounds.
  rewrite (available_space_eq _ _ _ _ Hs He) in * by bounds.
  rewrite ring_add by bounds.
  destruct (full c); cases; bounds.
Qed.

(** X9: a [receive_bytes] call that finds at [start] the length prefix of a
    frame lying within the used space returns a buffer of that length,
    raises the available space by exactly the frame size [8 + len], clears
    [full], lowers the readiness count by one and leaves [end_] and the data
    region untouched. *)
Theorem receive_bytes_frees_frame_size (c : channel) (block : bool) :
  lock c = 1 ->
  0 < n_unread c ->
  0 < capacity c <= PTRDIFF_MAX ->
  0 <= start c < capacity c ->
  0 <= end_ c < capacity c ->
  0 < pending_len c ->
  sizeof_size_t + pending_len c <= used_space c ->
  exists b c' copies,
    receive_bytes SEM_VALUE_MAX block c = (Ret b, c', copies) /\
    len b = pending_len c /\
    0 <= start c' < capacity c /\
    available_space (capacity c') (start c') (end_ c') (full c')
    = available_space (capacity c) (start c) (end_ c) (full c)
      + (sizeof_size_t + len b) /\
    full c' = false /\
    n_unread c' = n_unread c - 1 /\
    end_ c' = end_ c /\
    shared_mem c' = shared_mem c /\
    lock c' = 1.
Proof.
  intros Hl Hn Hcap Hs He Hlen Hused.
  destruct (taken_available_space c Hcap Hs He Hlen Hused) as [Hr Ha].
  exists (taken_buffer c), (taken c), (taken_copies c).
  rewrite receive_bytes_run by assumption.
  split; [reflexivity |]. split; [reflexivity |]. split; [exact Hr |].
  split; [exact Ha |]. repeat split.
Qed.

(** *** What a call leaves alone *)

(** X10: whatever the state and however the call ends, no call changes
    [capacity]; [receive_bytes] changes neither the data region nor [end_],
    and [send_bytes] does not change [start]. *)
Theorem step_frame (k : call) (c : channel) :
  capacity (snd (step SEM_VALUE_MAX k c)) = capacity c /\
  match k with
  | Send _ _ => start (snd (step SEM_VALUE_MAX k c)) = start c
  | Receive _ =>
      shared_mem (snd (step SEM_VALUE_MAX k c)) = shared_mem c /\
      end_ (snd (step SEM_VALUE_MAX k c)) = end_ c
  end.
Proof.
  destruct k as [bytes len | block]; unfold step.
  - unfold send_bytes. destruct (len =? 0); mrun; [split; reflexivity |].
    destruct (0 <? lock c); mrun; [| split; reflexivity].
    destruct (_ >? _); mrun.
    + destruct (_ <? SEM_VALUE_MAX); mrun; split; reflexivity.
    + destruct (_ >? end_ c); mrun;
        (destruct (_ >? _); mrun);
        (destruct (_ =? _); mrun);
        (destruct (n_unread c <? SEM_VALUE_MAX); mrun);
        (destruct (_ <? SEM_VALUE_MAX); mrun);
        split; reflexivity.
  - unfold receive_bytes.
    destruct block; mrun;
      (destruct (0 <? n_unread c); mrun; [| repeat split; reflexivity]);
      (destruct (0 <? lock c); mrun; [| repeat split; reflexivity]);
      (destruct (_ >? start c); mrun);
      (destruct (_ >? _); mrun);
      (destruct (_ <? SEM_VALUE_MAX); mrun);
      repeat split; reflexivity.
Qed.

(** *** Offsets stay in the region *)

Lemma step_offsets (k : call) (c : channel) :
  lock c = 1 -> 0 < capacity c ->
  0 <= start c < capacity c -> 0 <= end_ c < capacity c ->
  lock (snd (step SEM_VALUE_MAX k c)) = 1 /\
  capacity (snd (step SEM_VALUE_MAX k c)) = capacity c /\
  0 <= start (snd (step SEM_VALUE_MAX k c)) < capacity c /\
  0 <= end_ (snd (step SEM_VALUE_MAX k c)) < capacity c.
Proof.
  intros Hl Hcap Hs He. destruct k as [bytes len | block]; unfold step.
  - destruct (Z.eq_dec len 0) as [-> | Hlen].
    + rewrite send_bytes_empty. cbn [snd]. auto.
    + destruct (Z_gt_le_dec (frame_size len)
                  (available_space (capacity c) (start c) (end_ c) (full c))).
      * rewrite send_bytes_overflow by assumption. cbn [snd]. auto.
      * rewrite send_bytes_run by assumption.
        assert (Hm : 0 <= end_ (sent bytes len c) < capacity c)
          by (unfold sent; cbn [end_]; apply Z.mod_pos_bound; lia).
        destruct (n_unread c <? SEM_VALUE_MAX); cbn [snd]; repeat split;
          try assumption; try apply Hm; try apply Hs.
  - destruct (Z_lt_le_dec 0 (n_unread c)).
    + rewrite receive_bytes_run by assumption. cbn [snd].
      assert (Hm : 0 <= start (taken c) < capacity c)
        by (unfold taken; cbn [start]; apply Z.mod_pos_bound; lia).
      repeat split; try assumption; try apply Hm; try apply He.
    + rewrite receive_bytes_none by assumption. destruct block; cbn [snd]; auto.
Qed.

(** X11: in every state reached from a state with
    [0 <= start, end_ < capacity] and the mutex free, by sends and receives
    whose copies all stay inside the region, [start] and [end_] are again
    offsets into the region, [capacity] is the same and the mutex is free:
    the offsets are reduced modulo [capacity], also where a receive finds a
    length in the ring that no send put there. *)
Theorem run_keeps_offsets_in_region (ks : list call) : forall c : channel,
  lock c = 1 -> 0 < capacity c ->
  0 <= start c < capacity c -> 0 <= end_ c < capacity c ->
  forallb (within_region (capacity c)) (run_copies SEM_VALUE_MAX ks c) = true ->
  lock (snd (run SEM_VALUE_MAX ks c)) = 1 /\
  capacity (snd (run SEM_VALUE_MAX ks c)) = capacity c /\
  0 <= start (snd (run SEM_VALUE_MAX ks c)) < capacity c /\
  0 <= end_ (snd (run SEM_VALUE_MAX ks c)) < capacity c.
Proof.
  induction ks as [| k ks IH]; intros c Hl Hcap Hs He Hin; cbn [run].
  - cbn [snd]. auto.
  - cbn [run_copies] in Hin. rewrite forallb_app in Hin.
    apply andb_prop in Hin as [_ Hin].
    pose proof (step_offsets k c Hl Hcap Hs He) as (Hl' & Hc' & Hs' & He').
    destruct (step SEM_VALUE_MAX k c) as [r c']. cbn [snd] in *.
    specialize (IH c' Hl'). rewrite Hc' in IH. specialize (IH Hcap Hs' He' Hin).
    destruct (run SEM_VALUE_MAX ks c') as [h c'']. cbn [snd] in *.
    exact IH.
Qed.

(** *** A failing post *)

(** The readiness count is at its maximum only while a frame is in the
    ring: a send that returns, or whose post fails, has taken its 9 bytes or
    more, and a receive that returns lowers the count. *)
Lemma step_counted (k : call) (c : channel) :
  lock c = 1 -> 0 < capacity c <= PTRDIFF_MAX ->
  0 <= start c < capacity c -> 0 <= end_ c < capacity c ->
  match k with
  | Send _ len => 0 <= len <= SIZE_MAX - sizeof_size_t
  | Receive _ => True
  end ->
  n_unread c <= SEM_VALUE_MAX ->
  (n_unread c = SEM_VALUE_MAX -> sizeof_size_t < used_space c) ->
  n_unread (snd (step SEM_VALUE_MAX k c)) <= SEM_VALUE_MAX /\
  (n_unread (snd (step SEM_VALUE_MAX k c)) = SEM_VALUE_MAX ->
   sizeof_size_t < used_space (snd (step SEM_VALUE_MAX k c))).
Proof.
  intros Hl Hcap Hs He Hk Hle Hused.
  pose proof (available_space_bounds c Hcap Hs He) as Hb.
  destruct k as [bytes len | block]; unfold step.
  - destruct (Z.eq_dec len 0) as [-> | Hlen].
    + rewrite send_bytes_empty. cbn [snd]. auto.
    + destruct (Z_gt_le_dec (frame_size len)
                  (available_space (capacity c) (start c) (end_ c) (full c)))
        as [Hgt | Hfits].
      * rewrite send_bytes_overflow by assumption. cbn [snd]. auto.
      * rewrite send_bytes_run by assumption.
        rewrite (frame_size_small len Hk) in Hfits.
        destruct (sent_available_space c bytes len Hcap Hs He ltac:(lia) Hfits)
          as [_ Ha].
        assert (Hu : sizeof_size_t < used_space (sent bytes len c)).
        { unfold used_space.
          change (capacity (sent bytes len c)) with (capacity c).
          change (start (sent bytes len c)) with (start c).
          rewrite Ha. bounds. }
        destruct (Z.ltb_spec (n_unread c) SEM_VALUE_MAX); cbn [snd].
        -- split; [cbn; lia | intros _; exact Hu].
        -- split; [cbn; lia | intros _; exact Hu].
  - destruct (Z_lt_le_dec 0 (n_unread c)).
    + rewrite receive_bytes_run by assumption. cbn [snd]. unfold taken. cbn [n_unread].
      split; lia.
    + rewrite receive_bytes_none by assumption. destruct block; cbn [snd]; auto.
Qed.

Lemma run_counted (ks : list call) : forall c : channel,
  lock c = 1 -> 0 < capacity c <= PTRDIFF_MAX ->
  0 <= start c < capacity c -> 0 <= end_ c < capacity c ->
  lengths_in_range ks ->
  n_unread c <= SEM_VALUE_MAX ->
  (n_unread c = SEM_VALUE_MAX -> sizeof_size_t < used_space c) ->
  lock (snd (run SEM_VALUE_MAX ks c)) = 1 /\
  capacity (snd (run SEM_VALUE_MAX ks c)) = capacity c /\
  0 <= start (snd (run SEM_VALUE_MAX ks c)) < capacity c /\
  0 <= end_ (snd (run SEM_VALUE_MAX ks c)) < capacity c /\
  (n_unread (snd (run SEM_VALUE_MAX ks c)) = SEM_VALUE_MAX ->
   sizeof_size_t < used_space (snd (run SEM_VALUE_MAX ks c))).
Proof.
  induction ks as [| k ks IH]; intros c Hl Hcap Hs He Hok Hle Hused; cbn [run].
  - cbn [snd]. auto.
  - apply Forall_cons_iff in Hok as [Hk Hok].
    pose proof (step_offsets k c Hl ltac:(lia) Hs He) as (Hl' & Hc' & Hs' & He').
    pose proof (step_counted k c Hl Hcap Hs He Hk Hle Hused) as [Hle' Hused'].
    destruct (step SEM_VALUE_MAX k c) as [r c']. cbn [snd] in *.
    specialize (IH c' Hl'). rewrite Hc' in IH.
    specialize (IH Hcap Hs' He' Hok Hle' Hused').
    destruct (run SEM_VALUE_MAX ks c') as [h c'']. cbn [snd] in *.
    exact IH.
Qed.

(** C8: in a state reached from a new channel by sends and receives whose
    copies all stay inside the data region, when the post of the readiness
    semaphore fails (its count is at [SEM_VALUE_MAX]) in a send whose copies
    stay inside the region too, [send_bytes] throws the [runtime_error] on,
    and the state it leaves has the frame in the ring (prefix at the old
    [end_], payload behind it), [end_] and [full] at the values of a
    completed send, the readiness count as before and the mutex released. *)
Theorem send_bytes_post_failure_after_write
    (size : Z) (shared : mem) (ks : list call) (c : channel) (bytes : mem) (len : Z) :
  0 < size <= PTRDIFF_MAX ->
  lengths_in_range ks ->
  snd (run SEM_VALUE_MAX ks (new_channel size shared)) = c ->
  forallb (within_region size)
    (run_copies SEM_VALUE_MAX (ks ++ [Send bytes len]) (new_channel size shared)) = true ->
  0 < len ->
  sizeof_size_t + len <= available_space (capacity c) (start c) (end_ c) (full c) ->
  n_unread c = SEM_VALUE_MAX ->
  exists c' copies,
    send_bytes SEM_VALUE_MAX bytes len c = (Throw runtime_error, c', copies) /\
    ring_bytes (shared_mem c') (capacity c) (end_ c) 8 = le_split 8 len /\
    ring_bytes (shared_mem c') (capacity c)
      ((end_ c + sizeof_size_t) mod capacity c) (Z.to_nat len)
    = load_bytes bytes 0 (Z.to_nat len) /\
    end_ c' = (end_ c + sizeof_size_t + len) mod capacity c /\
    full c' = (if sizeof_size_t + len
                  =? available_space (capacity c) (start c) (end_ c) (full c)
               then true else full c) /\
    start c' = start c /\
    n_unread c' = n_unread c /\
    lock c' = 1.
Proof.
  intros Hsize Hok Hc _ Hlen Hfits Hmax.
  destruct (run_counted ks (new_channel size shared)) as (Hl & Hcap & Hs & He & Hused);
    try assumption; try reflexivity; try (cbn; lia).
  rewrite Hc in *. change (capacity (new_channel size shared)) with size in *.
  rewrite <- Hcap in Hs, He, Hsize.
  apply send_bytes_post_failure_state; try assumption.
  right. specialize (Hused Hmax). unfold used_space in Hused. bounds.
Qed.

(** *** First in, first out, until the ring wraps *)

Lemma frames_size_app (q1 q2 : list (mem * Z)) :
  frames_size (q1 ++ q2) = frames_size q1 + frames_size q2.
Proof.
  unfold frames_size. induction q1 as [| p q1 IH]; cbn [app fold_right]; lia.
Qed.

Lemma frames_at_ext (shm shm' : mem) (q : list (mem * Z)) : forall off,
  Forall (fun p => 0 < snd p) q ->
  (forall a, off <= a < off + frames_size q -> shm' a = shm a) ->
  frames_at shm off q -> frames_at shm' off q.
Proof.
  induction q as [| [bytes len] q IH]; intros off Hpos Hext Hq; cbn [frames_at] in *.
  - exact I.
  - apply Forall_cons_iff in Hpos as [Hlen Hpos]. cbn [snd] in Hlen.
    pose proof (frames_size_nonneg q Hpos) as Hq0.
    cbn [frames_size fold_right snd] in Hext. fold (frames_size q) in Hext.
    destruct Hq as (Hp & Hb & Hrest). repeat split.
    + intros i Hi. rewrite Hext by bounds. now apply Hp.
    + intros i Hi. rewrite Hext by bounds. now apply Hb.
    + apply IH; try assumption. intros a Ha. apply Hext. bounds.
Qed.

Lemma frames_at_app (shm : mem) (q1 q2 : list (mem * Z)) : forall off,
  frames_at shm off q1 ->
  frames_at shm (off + frames_size q1) q2 ->
  frames_at shm off (q1 ++ q2).
Proof.
  induction q1 as [| [bytes len] q1 IH]; intros off H1 H2; cbn [app frames_at] in *.
  - cbn [frames_size fold_right] in H2. now rewrite Z.add_0_r in H2.
  - destruct H1 as (Hp & Hb & Hrest). repeat split; try assumption.
    apply IH; [assumption |].
    cbn [frames_size fold_right snd] in H2. fold (frames_size q1) in H2.
    now replace (off + sizeof_size_t + len + frames_size q1)
      with (off + (sizeof_size_t + len + frames_size q1)) by lia.
Qed.

(** A send into a ring that has not wrapped writes at and behind [ot]. *)
Lemma unwrapped_send (cap oh ot : Z) (q : list (mem * Z)) (c : channel)
    (bytes : mem) (len : Z) :
  0 < cap <= PTRDIFF_MAX ->
  unwrapped cap q oh ot c ->
  0 < len -> ot + sizeof_size_t + len <= cap ->
  n_unread c < SEM_VALUE_MAX ->
  exists c' copies,
    send_bytes SEM_VALUE_MAX bytes len c = (Ret tt, c', copies) /\
    unwrapped cap (q ++ [(bytes, len)]) oh (ot + sizeof_size_t + len) c'.
Proof.
  intros Hcap (Hl & Hc & Hoh & Hot & Hotc & Hst & He & Hf & Hn & Hsum & Hpos & Hq)
    Hlen Hroom Hmax.
  subst cap.
  rewrite Z.mod_small in Hst, He by bounds.
  replace (ot =? capacity c) with false in Hf by (symmetry; apply Z.eqb_neq; bounds).
  rewrite andb_false_r in Hf.
  assert (Hs' : 0 <= start c < capacity c) by bounds.
  assert (He' : 0 <= end_ c < capacity c) by bounds.
  assert (Havail : available_space (capacity c) (start c) (end_ c) (full c)
                   = capacity c - (ot - oh)).
  { rewrite available_space_eq by bounds. rewrite Hst, He, Hf. cases; bounds. }
  assert (Hfits : sizeof_size_t + len
                  <= available_space (capacity c) (start c) (end_ c) (full c))
    by (rewrite Havail; bounds).
  assert (Hfs : frame_size len = sizeof_size_t + len)
    by (apply (fits_frame_size c); assumption).
  assert (Hpre : after_prefix (capacity c) (end_ c) = ot + sizeof_size_t).
  { rewrite (sent_after_prefix c len) by assumption. rewrite He.
    replace (ot + sizeof_size_t <? capacity c) with true
      by (symmetry; apply Z.ltb_lt; bounds).
    reflexivity. }
  exists (set_n_unread (n_unread c + 1) (sent bytes len c)), (sent_copies len c).
  rewrite send_bytes_run by (try assumption; try lia).
  replace (n_unread c <? SEM_VALUE_MAX) with true by (symmetry; apply Z.ltb_lt; lia).
  split; [reflexivity |].
  unfold unwrapped.
  cbn [lock capacity start end_ full n_unread shared_mem set_n_unread].
  split; [reflexivity |]. split; [reflexivity |].
  split; [assumption |]. split; [bounds |]. split; [assumption |].
  split; [rewrite Z.mod_small by bounds; exact Hst |].
  split; [rewrite (sent_end c bytes len) by assumption; now rewrite He |].
  split.
  { unfold sent. cbn [full]. fold (frame_size len). rewrite Hfs, Havail, Hf.
    cases; cbn [andb]; try reflexivity; bounds. }
  split; [rewrite length_app, Nat2Z.inj_add, Hn; reflexivity |].
  split.
  { rewrite frames_size_app. cbn [frames_size fold_right snd]. bounds. }
  split.
  { apply Forall_app. split; [assumption |]. now repeat constructor. }
  pose proof (frames_size_nonneg q Hpos) as Hq0.
  apply frames_at_app.
  - apply (frames_at_ext (shared_mem c)); try assumption.
    intros a Ha. unfold sent. cbn [shared_mem]. rewrite Hpre, He.
    rewrite copy_in_other; try bounds.
    + rewrite copy_in_nowrap by bounds. apply memcpy_outside. bounds.
    + rewrite size_t_add_small by bounds. cases; bounds.
  - rewrite Hsum. cbn [frames_at]. repeat split.
    + intros i Hi.
      replace (ot + i) with ((end_ c + i) mod capacity c)
        by (rewrite He; apply Z.mod_small; bounds).
      apply (sent_prefix c bytes len); try assumption. left. bounds.
    + intros i Hi.
      replace (ot + sizeof_size_t + i)
        with ((after_prefix (capacity c) (end_ c) + i) mod capacity c)
        by (rewrite Hpre; apply Z.mod_small; bounds).
      apply (sent_payload c bytes len); assumption.
Qed.

(** A receive from a ring that has not wrapped takes the oldest frame. *)
Lemma unwrapped_receive (cap oh ot : Z) (q : list (mem * Z)) (c : channel)
    (bytes : mem) (len : Z) (block : bool) :
  0 < cap <= PTRDIFF_MAX ->
  unwrapped cap ((bytes, len) :: q) oh ot c ->
  exists b c' copies,
    receive_bytes SEM_VALUE_MAX block c = (Ret b, c', copies) /\
    buffer_bytes b = payload_bytes (bytes, len) /\
    unwrapped cap q (oh + sizeof_size_t + len) ot c'.
Proof.
  intros Hcap (Hl & Hc & Hoh & Hot & Hotc & Hst & He & Hf & Hn & Hsum & Hpos & Hq).
  subst cap.
  apply Forall_cons_iff in Hpos as [Hlen Hpos]. cbn [snd] in Hlen.
  pose proof (frames_size_nonneg q Hpos) as Hq0.
  cbn [frames_size fold_right snd] in Hsum. fold (frames_size q) in Hsum.
  cbn [frames_at] in Hq. destruct Hq as (Hp & Hb & Hrest).
  rewrite Z.mod_small in Hst by bounds.
  assert (Hpre : after_prefix (capacity c) (start c) = oh + sizeof_size_t).
  { destruct (after_prefix_ring (capacity c) (start c)) as [-> _]; try bounds.
    rewrite Hst. apply Z.mod_small. bounds. }
  assert (Hlen1 : pending_len c = len).
  { unfold pending_len. apply size_t_load_bytes; [bounds |].
    intros i Hi. rewrite copy_out_ring by bounds.
    rewrite Hst, Z.mod_small by bounds. now apply Hp. }
  exists (taken_buffer c), (taken c), (taken_copies c).
  rewrite receive_bytes_run
    by (try assumption; rewrite Hn; cbn [List.length]; lia).
  split; [reflexivity |]. split.
  - rewrite taken_buffer_bytes, Hlen1, Hpre. unfold payload_bytes, load_bytes.
    cbn [fst snd]. apply map_ext_in. intros i Hi%in_seq.
    rewrite !Z.add_0_l. rewrite copy_out_ring by bounds.
    rewrite Z.mod_small by bounds. apply Hb. lia.
  - unfold unwrapped, taken.
    cbn [lock capacity start end_ full n_unread shared_mem].
    rewrite Hlen1, Hpre.
    split; [reflexivity |]. split; [reflexivity |].
    split; [bounds |]. split; [bounds |]. split; [assumption |].
    split.
    { unfold size_t_rem. rewrite size_t_add_small by bounds. reflexivity. }
    split; [assumption |].
    split.
    { replace (oh + sizeof_size_t + len =? 0) with false
        by (symmetry; apply Z.eqb_neq; bounds).
      reflexivity. }
    split.
    { rewrite Hn. cbn [List.length]. lia. }
    split; [bounds |]. split; assumption.
Qed.

Lemma fifo_unwrapped (cap : Z) (ks : list call) :
  forall (q : list (mem * Z)) (oh ot : Z) (c : channel),
  0 < cap <= PTRDIFF_MAX ->
  unwrapped cap q oh ot c ->
  lengths_ok ks ->
  ot + sent_total ks <= cap ->
  Z.of_nat (List.length q) + frames_in ks <= SEM_VALUE_MAX ->
  received (fst (run SEM_VALUE_MAX ks c)) = fifo ks (map payload_bytes q).
Proof.
  induction ks as [| k ks IH]; intros q oh ot c Hcap Hinv Hok Hsum Hmax.
  - reflexivity.
  - apply Forall_cons_iff in Hok as [Hk Hok].
    assert (Hs0 : 0 <= sent_total ks).
    { clear - Hok. induction ks as [| [b l | bl] ks IH]; cbn [sent_total].
      - lia.
      - apply Forall_cons_iff in Hok as [Hl Hok]. specialize (IH Hok).
        destruct (Z.eqb_spec l 0); bounds.
      - apply Forall_cons_iff in Hok as [_ Hok]. now apply IH. }
    assert (Hf0 : 0 <= frames_in ks).
    { clear. induction ks as [| [b l | bl] ks IH]; cbn [frames_in]; try lia.
      destruct (l =? 0); lia. }
    destruct k as [bytes len | block]; cbn [run step sent_total frames_in fifo] in *.
    + destruct (Z.eqb_spec len 0) as [-> | Hlen].
      * rewrite send_bytes_empty.
        specialize (IH q oh ot c Hcap Hinv Hok ltac:(lia) ltac:(lia)).
        destruct (run SEM_VALUE_MAX ks c) as [h c']. exact IH.
      * destruct (unwrapped_send cap oh ot q c bytes len) as (c1 & copies & Hrun & Hinv1);
          try assumption; try bounds.
        { destruct Hinv as (_ & _ & _ & _ & _ & _ & _ & _ & Hn & _). lia. }
        rewrite Hrun.
        specialize (IH (q ++ [(bytes, len)]) oh (ot + sizeof_size_t + len) c1 Hcap Hinv1 Hok).
        rewrite map_app in IH. cbn [map] in IH.
        destruct (run SEM_VALUE_MAX ks c1) as [h c'].
        cbn [fst received] in *. apply IH; [bounds |].
        rewrite length_app, Nat2Z.inj_add. cbn [List.length]. lia.
    + destruct q as [| [bytes len] q].
      * assert (Hn : n_unread c <= 0).
        { destruct Hinv as (_ & _ & _ & _ & _ & _ & _ & _ & Hn & _).
          rewrite Hn. cbn [List.length]. lia. }
        rewrite receive_bytes_none by assumption.
        specialize (IH [] oh ot c Hcap Hinv Hok Hsum Hmax).
        destruct block; destruct (run SEM_VALUE_MAX ks c) as [h c']; exact IH.
      * destruct (unwrapped_receive cap oh ot q c bytes len block Hcap Hinv)
          as (b & c1 & copies & Hrun & Hb & Hinv1).
        rewrite Hrun.
        specialize (IH q (oh + sizeof_size_t + len) ot c1 Hcap Hinv1 Hok Hsum).
        destruct (run SEM_VALUE_MAX ks c1) as [h c'].
        cbn [fst received map] in *. rewrite Hb. f_equal. apply IH.
        cbn [List.length] in Hmax. lia.
Qed.

(** X12: first in, first out, byte for byte, as long as the ring has not
    wrapped.  On a new channel, for every sequence of sends and (blocking or
    non-blocking) receives whose frames take no more than [capacity] bytes
    in all and whose copies all stay inside the region, the receives that
    return deliver exactly the payloads of the FIFO, in its order. *)
Theorem fifo_until_ring_wraps (size : Z) (shared : mem) (ks : list call) :
  0 < size <= PTRDIFF_MAX ->
  lengths_ok ks ->
  sent_total ks <= size ->
  frames_in ks <= SEM_VALUE_MAX ->
  forallb (within_region size)
    (run_copies SEM_VALUE_MAX ks (new_channel size shared)) = true ->
  received (fst (run SEM_VALUE_MAX ks (new_channel size shared))) = fifo ks [].
Proof.
  intros Hsize Hok Hsum Hmax _.
  apply (fifo_unwrapped size ks [] 0 0); try assumption; try (cbn; lia).
  unfold unwrapped, new_channel.
  cbn [lock capacity start end_ full n_unread shared_mem List.length frames_size
       fold_right frames_at].
  rewrite Z.mod_0_l by lia.
  repeat split; try lia. constructor.
Qed.

(** *** The bytes behind a payload *)

(** X13: the non-wrapping payload copy of a send has [8 + len] bytes, so
    the 8 bytes of the sender's memory behind the payload are written
    behind the frame.  When the frame ends at [start], where the oldest
    waiting frame begins, they replace its length prefix: the length the
    next receive finds is the number in the sender's memory at
    [bytes + len]. *)
Theorem send_bytes_overwrites_waiting_prefix (c : channel) (bytes : mem) (len : Z) :
  lock c = 1 ->
  0 < capacity c <= PTRDIFF_MAX ->
  0 <= start c < capacity c ->
  0 <= end_ c < capacity c ->
  0 < len ->
  sizeof_size_t + len <= available_space (capacity c) (start c) (end_ c) (full c) ->
  (end_ c + sizeof_size_t) mod capacity c + len < capacity c ->
  exists r c' copies,
    send_bytes SEM_VALUE_MAX bytes len c = (r, c', copies) /\
    (forall i, 0 <= i < sizeof_size_t ->
       shared_mem c' ((end_ c + sizeof_size_t) mod capacity c + len + i)
       = bytes (len + i)) /\
    (start c = (end_ c + sizeof_size_t) mod capacity c + len ->
     start c + sizeof_size_t <= capacity c ->
     pending_len c' = size_t_load (fun i => bytes (len + i))).
Proof.
  intros Hl Hcap Hs He Hlen Hfits Hnowrap.
  pose proof (fits_capacity c len Hcap Hs He Hfits) as Hc.
  destruct (after_prefix_ring (capacity c) (end_ c)) as [Hp Hr]; [lia | bounds |].
  rewrite <- Hp in *.
  assert (Hmem : forall i, 0 <= i < sizeof_size_t ->
            shared_mem (sent bytes len c) (after_prefix (capacity c) (end_ c) + len + i)
            = bytes (len + i)).
  { intros i Hi. unfold sent. cbn [shared_mem].
    rewrite (size_t_add_small sizeof_size_t len) by bounds.
    rewrite copy_in_nowrap by bounds.
    rewrite memcpy_inside by bounds. f_equal. lia. }
  assert (Hpend : start c = after_prefix (capacity c) (end_ c) + len ->
            start c + sizeof_size_t <= capacity c ->
            pending_len (sent bytes len c) = size_t_load (fun i => bytes (len + i))).
  { intros Hat Hroom. unfold pending_len, size_t_load. f_equal.
    unfold load_bytes. apply map_ext_in. intros i Hi%in_seq.
    change (capacity (sent bytes len c)) with (capacity c).
    change (start (sent bytes len c)) with (start c).
    rewrite !Z.add_0_l. rewrite copy_out_ring by bounds.
    rewrite Z.mod_small by bounds. rewrite Hat. apply Hmem. bounds. }
  rewrite send_bytes_run; try assumption; try lia.
  2: { rewrite (fits_frame_size c len); assumption. }
  destruct (n_unread c <? SEM_VALUE_MAX); do 3 eexists;
    (split; [reflexivity |]); split; assumption.
Qed.

(** A frame sent into an empty ring and received. *)
Lemma empty_ring_send_then_receive (c : channel) (bytes : mem) (len : Z) (block : bool) :
  lock c = 1 ->
  0 < capacity c <= PTRDIFF_MAX ->
  0 <= start c < capacity c ->
  end_ c = start c -> full c = false -> n_unread c = 0 ->
  0 < len -> sizeof_size_t + len <= capacity c ->
  end_ c + sizeof_size_t < capacity c \/ len + 2 * sizeof_size_t <= capacity c ->
  let c1 := set_n_unread (n_unread c + 1) (sent bytes len c) in
  send_bytes SEM_VALUE_MAX bytes len c = (Ret tt, c1, sent_copies len c) /\
  receive_bytes SEM_VALUE_MAX block c1 = (Ret (taken_buffer c1), taken c1, taken_copies c1) /\
  buffer_bytes (taken_buffer c1) = load_bytes bytes 0 (Z.to_nat len) /\
  end_ (taken c1) = start (taken c1) /\ full (taken c1) = false /\
  n_unread (taken c1) = 0.
Proof.
  intros Hl Hcap Hs Hempty Hf Hn Hlen Hc Hroom c1.
  assert (He : 0 <= end_ c < capacity c) by lia.
  assert (Havail : available_space (capacity c) (start c) (end_ c) (full c) = capacity c).
  { rewrite available_space_eq by bounds. rewrite Hempty, Hf, Z.ltb_irrefl. reflexivity. }
  assert (Hfits : sizeof_size_t + len
                  <= available_space (capacity c) (start c) (end_ c) (full c)) by lia.
  destruct (after_prefix_ring (capacity c) (end_ c)) as [Hp Hr]; [lia | bounds |].
  assert (Hlen1 : pending_len c1 = len).
  { unfold pending_len. apply size_t_load_bytes; [bounds |].
    intros i Hi. cbn [c1 shared_mem capacity start set_n_unread sent].
    rewrite copy_out_ring by bounds. rewrite <- Hempty.
    apply (sent_prefix c bytes len); assumption. }
  rewrite send_bytes_run; try assumption; try lia.
  2: { rewrite (fits_frame_size c len); assumption. }
  replace (n_unread c <? SEM_VALUE_MAX) with true by (symmetry; apply Z.ltb_lt; lia).
  split; [reflexivity |].
  rewrite receive_bytes_run by (cbn; lia).
  split; [reflexivity |]. split; [| split; [| split]].
  - rewrite taken_buffer_bytes, Hlen1.
    unfold load_bytes. apply map_ext_in. intros i Hi%in_seq.
    cbn [c1 shared_mem capacity start set_n_unread sent].
    rewrite <- Hempty. rewrite !Z.add_0_l.
    rewrite copy_out_ring by bounds.
    apply (sent_payload c bytes len); try assumption. lia.
  - unfold taken. cbn [end_ start]. rewrite Hlen1.
    cbn [c1 capacity start end_ set_n_unread sent]. rewrite <- Hempty. reflexivity.
  - reflexivity.
  - cbn. lia.
Qed.

End ChannelFacts.

(** ** Python objects over the channel *)

Section PyObjFacts.

Variable pyobj : Type.
Variable dumps : pyobj -> Z -> option (mem * Z).
Variable loads : list byte -> option pyobj.
Variable SEM_VALUE_MAX : Z.
Hypothesis SEM_VALUE_MAX_pos : 1 <= SEM_VALUE_MAX.

(** X14: an object sent with [send_pyobj] into an empty ring comes back
    from [receive_pyobj], provided [pickle.loads] inverts [pickle.dumps] on
    it, its pickle is not empty and fits, the copies of the send stay inside
    the region and the payload copy cannot run over the frame's own prefix;
    the ring is empty again afterwards. *)
Theorem pyobj_round_trip (c : channel) (obj : pyobj) (buf : mem) (len : Z) (block : bool) :
  dumps obj PICKLE_PROTOCOL = Some (buf, len) ->
  loads (load_bytes buf 0 (Z.to_nat len)) = Some obj ->
  lock c = 1 ->
  0 < capacity c <= PTRDIFF_MAX ->
  0 <= start c < capacity c ->
  end_ c = start c -> full c = false -> n_unread c = 0 ->
  0 < len -> sizeof_size_t + len <= capacity c ->
  forallb (within_region (capacity c))
    (snd (send_pyobj pyobj dumps SEM_VALUE_MAX obj c)) = true ->
  end_ c + sizeof_size_t < capacity c \/ len + 2 * sizeof_size_t <= capacity c ->
  exists c1 copies1 c2 copies2,
    send_pyobj pyobj dumps SEM_VALUE_MAX obj c = (Ret (PyValue tt), c1, copies1) /\
    receive_pyobj pyobj loads SEM_VALUE_MAX block c1 = (Ret (PyValue obj), c2, copies2) /\
    end_ c2 = start c2 /\ full c2 = false /\ n_unread c2 = 0.
Proof.
  intros Hd Hld Hl Hcap Hs Hempty Hf Hn Hlen Hc _ Hroom.
  destruct (empty_ring_send_then_receive SEM_VALUE_MAX SEM_VALUE_MAX_pos
              c buf len block Hl Hcap Hs Hempty Hf Hn Hlen Hc Hroom)
    as (Hsend & Hrecv & Hbytes & He2 & Hf2 & Hn2).
  do 4 eexists. unfold send_pyobj, receive_pyobj. rewrite Hd.
  unfold bind at 1. rewrite Hsend. unfold ret at 1.
  split; [rewrite app_nil_r; reflexivity |].
  unfold bind. rewrite Hrecv, Hbytes, Hld. unfold ret.
  split; [reflexivity |]. repeat split; assumption.
Qed.

(** X15: [receive_pyobj] takes the frame before it unpickles it: when the
    copies of the receive stay inside the region and [pickle.loads] raises
    on the bytes received, the Python error leaves [receive_pyobj], and the
    channel is in the state [receive_bytes] leaves, the frame consumed and
    the readiness count one lower. *)
Theorem receive_pyobj_error_consumes_frame (c : channel) (block : bool) :
  lock c = 1 ->
  0 < n_unread c ->
  0 < capacity c <= PTRDIFF_MAX ->
  0 <= start c < capacity c ->
  forallb (within_region (capacity c))
    (snd (receive_pyobj pyobj loads SEM_VALUE_MAX block c)) = true ->
  loads (buffer_bytes (taken_buffer c)) = None ->
  exists c' copies,
    receive_bytes SEM_VALUE_MAX block c = (Ret (taken_buffer c), c', copies) /\
    receive_pyobj pyobj loads SEM_VALUE_MAX block c = (Ret PyError, c', copies) /\
    n_unread c' = n_unread c - 1.
Proof.
  intros Hl Hn _ _ _ Hloads.
  pose proof (receive_bytes_run SEM_VALUE_MAX SEM_VALUE_MAX_pos c block Hl Hn) as Hrun.
  exists (taken c), (taken_copies c).
  split; [exact Hrun |]. split; [| reflexivity].
  unfold receive_pyobj, bind. rewrite Hrun, Hloads. unfold ret.
  now rewrite app_nil_r.
Qed.

End PyObjFacts.

(** ** The calls on concrete channels *)

Lemma sem_max_linux_pos : 1 <= sem_max_linux.
Proof. unfold sem_max_linux. lia. Defined.

(** The spec's scenario: capacity 32, "AB" then "CDE" sent, two receives. *)
Example ab_cde_round_trip :
  let '(h, c) := run sem_max_linux [Send AB 2; Send CDE 3; Receive true; Receive true] ch32 in
  received h = [payload "AB"; payload "CDE"] /\
  start c = end_ c /\ full c = false /\ n_unread c = 0.
Proof. vm_compute. repeat split. Qed.

Lemma send_bytes_payload_copy_size_witness :
  exists prefix_copies,
    snd (send_bytes sem_max_linux AB 2 ch32) =
    prefix_copies ++ [{| dst := (Shared, 8); src := (Bytes, 0); size := 10 |}].
Proof.
  refine (send_bytes_payload_copy_size sem_max_linux sem_max_linux_pos ch32 AB 2
            _ _ _ _ _ _); vm_compute; repeat split; discriminate.
Defined.

(** C2: a run whose frames in flight never take more than the 32 bytes of
    the channel, and whose second receive returns "BBBB" where the FIFO has
    "BBBBBBBB".  The third send writes its prefix at 0 and copies [8 + 8]
    bytes to offset 8: the 8 bytes behind "CCCCCCCC" in the sender's memory
    (here the number 4) land on offsets 16 to 23, the prefix of the frame
    that is still waiting. *)
Theorem fifo_round_trip_broken_by_payload_copy :
  let ks := refill (le_split 8 4) ++ [Receive false] in
  in_flight_within 32 ks [] = true /\
  fifo ks [] = [payload "AAAAAAAA"; payload "BBBBBBBB"] /\
  received (fst (run sem_max_linux ks ch32)) = [payload "AAAAAAAA"; payload "BBBB"].
Proof. vm_compute. repeat split. Qed.

(** C10: a state reached by sends whose frames fit, in which [receive_bytes]
    takes the wrapping branch for the payload with a first half of
    [capacity - offset = 8] bytes and a total of [len = 0]: the second half
    is [0 - 8] in [size_t], a copy of [2^64 - 8] bytes.  The third send put
    the 8 zero bytes behind its payload on the waiting frame's prefix. *)
Theorem receive_bytes_wrapping_branch_underflow :
  let c := snd (run sem_max_linux (refill (repeat Byte.x00 8)) ch32) in
  in_flight_within 32 (refill (repeat Byte.x00 8)) [] = true /\
  pending_len c = 0 /\
  snd (receive_bytes sem_max_linux false c) =
  [{| dst := (LenBytes, 0); src := (Shared, 16); size := 8 |};
   {| dst := (Bytes, 0); src := (Shared, 24); size := 8 |};
   {| dst := (Bytes, 8); src := (Shared, 0); size := SIZE_MAX - 7 |}] /\
  forallb (within_region 32) (snd (receive_bytes sem_max_linux false c)) = false.
Proof. vm_compute. repeat split. Qed.

(** Counterexample to C3 as stated, a call without payload: on a full
    channel the frame size [8 + 0] exceeds the available space 0, and the
    call returns without throwing. *)
Lemma send_bytes_empty_payload_no_overflow :
  frame_size 0 > available_space (capacity full16) (start full16) (end_ full16) (full full16) /\
  fst (fst (send_bytes sem_max_linux AB 0 full16)) = Ret tt /\
  fst (fst (send_bytes sem_max_linux AB 0 full16)) <> Throw overflow_error.
Proof. vm_compute. repeat split. discriminate. Qed.

Lemma send_bytes_overflow_no_mutation_witness :
  send_bytes sem_max_linux AB 2 full16 = (Throw overflow_error, full16, []).
Proof.
  apply (send_bytes_overflow_no_mutation sem_max_linux sem_max_linux_pos);
    vm_compute; reflexivity.
Defined.

Lemma receive_bytes_empty_nonblocking_witness :
  receive_bytes sem_max_linux false ch32 = (Throw out_of_range, ch32, []).
Proof. apply receive_bytes_empty_nonblocking. reflexivity. Defined.

Lemma available_space_cases_witness :
  (10 < 20 -> available_space 32 10 20 false = 32 - (20 - 10)) /\
  (10 > 20 -> available_space 32 10 20 false = 10 - 20) /\
  (10 = 20 -> false = false -> available_space 32 10 20 false = 32) /\
  (10 = 20 -> false = true -> available_space 32 10 20 false = 0).
Proof.
  apply (available_space_cases 32 10 20 false); vm_compute; repeat split; discriminate.
Defined.

Lemma full_after_capacity_bytes_then_receive_witness :
  exists c,
    send_all sem_max_linux [(A8, 8); (B8, 8)] ch32 = Some c /\
    full c = true /\
    available_space (capacity c) (start c) (end_ c) (full c) = 0 /\
    forall block, exists b c' copies,
      receive_bytes sem_max_linux block c = (Ret b, c', copies) /\
      len b = 8 /\
      full c' = false /\
      available_space (capacity c') (start c') (end_ c') (full c') = sizeof_size_t + 8.
Proof.
  apply (full_after_capacity_bytes_then_receive sem_max_linux sem_max_linux_pos
           32 malloc_mem A8 8 [(B8, 8)]).
  - vm_compute. split; [reflexivity | discriminate].
  - repeat constructor.
  - reflexivity.
  - vm_compute. discriminate.
Defined.

(** The same on a channel that was used before: the ring is empty at offset
    16 when two frames of 16 bytes are sent.  [full] is set and no space is
    left, but the second frame ends at offset 16 without reaching the end of
    the region, so its payload copy puts the 8 bytes behind "CCCCCCCC" on the
    prefix of the first: the receive takes 4 bytes and leaves 12 bytes of
    available space, not 16. *)
Example full_after_reuse_then_receive :
  let filled :=
    snd (run sem_max_linux [Send A8 8; Receive false; Send B8 8; Send (C8 (le_split 8 4)) 8]
           ch32) in
  start filled = 16 /\ end_ filled = 16 /\ full filled = true /\
  available_space (capacity filled) (start filled) (end_ filled) (full filled) = 0 /\
  let '(h, c) := run sem_max_linux [Receive false] filled in
  received h = [payload "BBBB"] /\ full c = false /\
  available_space (capacity c) (start c) (end_ c) (full c) = 12.
Proof. vm_compute. repeat split. Qed.

Lemma sem_max_posix_pos : 1 <= sem_max_posix.
Proof. unfold sem_max_posix. lia. Defined.

(** After 32767 frames of one byte the count is at [sem_max_posix]; the
    next send, of "AB", writes its frame at offset 294903 and its post
    fails. *)
Lemma send_bytes_post_failure_after_write_witness :
  exists c' copies,
    send_bytes sem_max_posix AB 2 counted_out = (Throw runtime_error, c', copies) /\
    ring_bytes (shared_mem c') (capacity counted_out) (end_ counted_out) 8 = le_split 8 2 /\
    ring_bytes (shared_mem c') (capacity counted_out)
      ((end_ counted_out + sizeof_size_t) mod capacity counted_out) (Z.to_nat 2)
    = load_bytes AB 0 (Z.to_nat 2) /\
    end_ c' = (end_ counted_out + sizeof_size_t + 2) mod capacity counted_out /\
    full c' = (if sizeof_size_t + 2
                  =? available_space (capacity counted_out) (start counted_out)
                       (end_ counted_out) (full counted_out)
               then true else full counted_out) /\
    start c' = start counted_out /\
    n_unread c' = n_unread counted_out /\
    lock c' = 1.
Proof.
  refine (send_bytes_post_failure_after_write sem_max_posix sem_max_posix_pos
            MiB malloc_mem one_byte_frames counted_out AB 2 _ _ _ _ _ _ _).
  - vm_compute. split; [reflexivity | discriminate].
  - apply Forall_forall. intros k Hk. apply repeat_spec in Hk. rewrite Hk.
    vm_compute. split; discriminate.
  - reflexivity.
  - vm_compute. reflexivity.
  - reflexivity.
  - vm_compute. discriminate.
  - vm_compute. reflexivity.
Defined.

(** Counterexample to C9 as stated, a call without payload: it returns,
    and the readiness count stays 0. *)
Lemma send_bytes_empty_payload_not_counted :
  count is_successful_send (fst (run sem_max_linux [Send AB 0] ch32))
  - count is_successful_receive (fst (run sem_max_linux [Send AB 0] ch32)) = 1 /\
  n_unread (snd (run sem_max_linux [Send AB 0] ch32)) = 0.
Proof. vm_compute. split; reflexivity. Qed.

Lemma readiness_count_frames_sent_minus_received_witness :
  n_unread (snd (run sem_max_linux (refill [] ++ [Send AB 0]) ch32))
  = count is_frame_sent (fst (run sem_max_linux (refill [] ++ [Send AB 0]) ch32))
    - count is_successful_receive
        (fst (run sem_max_linux (refill [] ++ [Send AB 0]) ch32)).
Proof.
  apply (readiness_count_frames_sent_minus_received sem_max_linux sem_max_linux_pos
           32 malloc_mem (refill [] ++ [Send AB 0])).
  vm_compute. reflexivity.
Defined.

(** In a new channel of 32 bytes a payload of 20 bytes is copied to offsets
    8 to 35. *)
Lemma send_bytes_copies_within_region_witness :
  forallb (within_region 32) (snd (send_bytes sem_max_linux twenty 20 ch32)) = false.
Proof.
  refine (send_bytes_copies_within_region sem_max_linux sem_max_linux_pos
            ch32 twenty 20 _ _ _ _ _ _); vm_compute; repeat split; discriminate.
Defined.

Lemma send_bytes_takes_frame_size_witness :
  exists c' copies,
    send_bytes sem_max_linux AB 2 ch32 = (Ret tt, c', copies) /\
    lock c' = 1 /\ capacity c' = 32 /\ start c' = 0 /\
    0 <= end_ c' < 32 /\
    n_unread c' = 0 + 1 /\
    available_space (capacity c') (start c') (end_ c') (full c')
    = available_space 32 0 0 false - (sizeof_size_t + 2) /\
    (9 * 0 <= used_space ch32 -> 9 * n_unread c' <= used_space c').
Proof.
  refine (send_bytes_takes_frame_size sem_max_linux sem_max_linux_pos
            ch32 AB 2 _ _ _ _ _ _ _ _); vm_compute; repeat split; discriminate.
Defined.

Lemma send_receive_round_trip_witness :
  exists c1 copies1 b c2 copies2,
    send_bytes sem_max_linux AB 2 ch32 = (Ret tt, c1, copies1) /\
    receive_bytes sem_max_linux false c1 = (Ret b, c2, copies2) /\
    buffer_bytes b = load_bytes AB 0 (Z.to_nat 2) /\
    end_ c2 = start c2 /\ full c2 = false /\ n_unread c2 = 0.
Proof.
  refine (send_receive_round_trip sem_max_linux sem_max_linux_pos
            ch32 AB 2 false _ _ _ _ _ _ _ _ _ _);
    try (left; reflexivity); vm_compute; repeat split; discriminate.
Defined.

Lemma receive_bytes_copies_within_region_witness :
  forallb (within_region (capacity full16))
    (snd (receive_bytes sem_max_linux true full16)) = true.
Proof.
  refine (receive_bytes_copies_within_region sem_max_linux sem_max_linux_pos
            full16 true _ _ _ _ _ _); vm_compute; repeat split; discriminate.
Defined.

Lemma send_bytes_overflow_iff_witness :
  (fst (fst (send_bytes sem_max_linux AB 2 ch32)) = Throw overflow_error
   <-> sizeof_size_t + 2 > available_space (capacity ch32) (start ch32) (end_ ch32) (full ch32)) /\
  (fst (fst (send_bytes sem_max_linux AB 2 ch32)) = Ret tt
   <-> sizeof_size_t + 2 <= available_space (capacity ch32) (start ch32) (end_ ch32) (full ch32)
       /\ n_unread ch32 < sem_max_linux).
Proof.
  refine (send_bytes_overflow_iff sem_max_linux sem_max_linux_pos ch32 AB 2
            _ _ _ _ _ _);
    vm_compute; repeat split; discriminate.
Defined.

Lemma send_bytes_frame_larger_than_capacity_witness :
  send_bytes sem_max_linux twenty 25 ch32 = (Throw overflow_error, ch32, []).
Proof.
  refine (send_bytes_frame_larger_than_capacity sem_max_linux sem_max_linux_pos
            ch32 twenty 25 _ _ _ _ _ _); vm_compute; repeat split; discriminate.
Defined.

Lemma receive_bytes_empty_blocking_witness :
  receive_bytes sem_max_linux true ch32 = (Block, ch32, []).
Proof. apply receive_bytes_empty_blocking. reflexivity. Defined.

Lemma receive_bytes_frees_frame_size_witness :
  exists b c' copies,
    receive_bytes sem_max_linux true full16 = (Ret b, c', copies) /\
    len b = pending_len full16 /\
    0 <= start c' < capacity full16 /\
    available_space (capacity c') (start c') (end_ c') (full c')
    = available_space (capacity full16) (start full16) (end_ full16) (full full16)
      + (sizeof_size_t + len b) /\
    full c' = false /\
    n_unread c' = n_unread full16 - 1 /\
    end_ c' = end_ full16 /\
    shared_mem c' = shared_mem full16 /\
    lock c' = 1.
Proof.
  refine (receive_bytes_frees_frame_size sem_max_linux sem_max_linux_pos
            full16 true _ _ _ _ _ _ _); vm_compute; repeat split; discriminate.
Defined.

Lemma run_keeps_offsets_in_region_witness :
  lock (snd (run sem_max_linux (refill []) ch32)) = 1 /\
  capacity (snd (run sem_max_linux (refill []) ch32)) = capacity ch32 /\
  0 <= start (snd (run sem_max_linux (refill []) ch32)) < capacity ch32 /\
  0 <= end_ (snd (run sem_max_linux (refill []) ch32)) < capacity ch32.
Proof.
  refine (run_keeps_offsets_in_region sem_max_linux sem_max_linux_pos
            (refill []) ch32 _ _ _ _ _); vm_compute; repeat split; discriminate.
Defined.

Lemma fifo_until_ring_wraps_witness :
  received (fst (run sem_max_linux
                   [Send AB 2; Receive false; Send CDE 3; Receive true; Receive false]
                   (new_channel 32 malloc_mem)))
  = fifo [Send AB 2; Receive false; Send CDE 3; Receive true; Receive false] [].
Proof.
  refine (fifo_until_ring_wraps sem_max_linux sem_max_linux_pos 32 malloc_mem
            [Send AB 2; Receive false; Send CDE 3; Receive true; Receive false]
            _ _ _ _ _).
  - vm_compute. split; [reflexivity | discriminate].
  - repeat constructor; discriminate.
  - vm_compute. discriminate.
  - vm_compute. discriminate.
  - vm_compute. reflexivity.
Defined.

Lemma send_bytes_overwrites_waiting_prefix_witness :
  exists r c' copies,
    send_bytes sem_max_linux (C8 (le_split 8 4)) 8 half_drained = (r, c', copies) /\
    (forall i, 0 <= i < sizeof_size_t ->
       shared_mem c' ((end_ half_drained + sizeof_size_t) mod capacity half_drained + 8 + i)
       = C8 (le_split 8 4) (8 + i)) /\
    (start half_drained
     = (end_ half_drained + sizeof_size_t) mod capacity half_drained + 8 ->
     start half_drained + sizeof_size_t <= capacity half_drained ->
     pending_len c' = size_t_load (fun i => C8 (le_split 8 4) (8 + i))).
Proof.
  refine (send_bytes_overwrites_waiting_prefix sem_max_linux sem_max_linux_pos
            half_drained (C8 (le_split 8 4)) 8 _ _ _ _ _ _ _);
    vm_compute; repeat split; discriminate.
Defined.

Lemma pyobj_round_trip_witness :
  exists c1 copies1 c2 copies2,
    send_pyobj (list byte) toy_dumps sem_max_linux (payload "AB") ch32
    = (Ret (PyValue tt), c1, copies1) /\
    receive_pyobj (list byte) toy_loads sem_max_linux true c1
    = (Ret (PyValue (payload "AB")), c2, copies2) /\
    end_ c2 = start c2 /\ full c2 = false /\ n_unread c2 = 0.
Proof.
  refine (pyobj_round_trip (list byte) toy_dumps toy_loads sem_max_linux
            sem_max_linux_pos ch32 (payload "AB")
            (mem_of_list (byte.of_Z PICKLE_PROTOCOL :: payload "AB")) 3 true
            _ _ _ _ _ _ _ _ _ _ _ _);
    try (left; reflexivity); vm_compute; repeat split; discriminate.
Defined.

Lemma receive_pyobj_error_consumes_frame_witness :
  exists c' copies,
    receive_bytes sem_max_linux false holding_ab
    = (Ret (taken_buffer holding_ab), c', copies) /\
    receive_pyobj (list byte) toy_loads sem_max_linux false holding_ab
    = (Ret PyError, c', copies) /\
    n_unread c' = n_unread holding_ab - 1.
Proof.
  refine (receive_pyobj_error_consumes_frame (list byte) toy_loads sem_max_linux
            sem_max_linux_pos holding_ab false _ _ _ _ _ _);
    vm_compute; repeat split; discriminate.
Defined.
